(** * sacred/config_scope.py: configuration scopes, literal entries and
      their chained evaluation

    A shallow embedding of [src/sacred/config_scope.py] and the properties
    its specification states about it.

    Conventions of the embedding.
    - A Python mapping keyed by configuration names ([fixed], [preset],
      [fallback], the primary store of the namespace, a summary) is a
      [gmap string value]: none of the loops over such a mapping has a
      result that depends on the iteration order.
    - A configuration value is a [value]: None, bool, numpy.bool_, int,
      str, a nested dict with string keys (in insertion order, keys
      distinct), an object that json cannot encode, or a list that holds
      itself.  Nested dicts carry
      the class of the object: plain [dict] or the tracking class of
      [sacred.custom_containers].  Sequences and floats are left out; no
      function of this file looks inside them.
    - Values are immutable data: two layers that hold the same nested dict
      object in Python hold two equal values here.
    - A Python exception is [Err], see [result]. *)

From Stdlib Require Import ZArith Ascii String List.
From stdpp Require Import base option list gmap strings.

Open Scope string_scope.
Open Scope list_scope.

(** ** Values *)

#[warnings="-register-all"]
Inductive value : Type :=
| VNone
| VBool (b : bool)
| VNpBool (b : bool)
| VInt (n : Z)
| VStr (s : string)
| VDict (tracking : bool) (items : list (string * value))
| VObj (id : nat)
| VCircular.

(** [VObj] is a plain object, as [object()] makes one.  [VCircular] is a
    list that holds itself ([l = []; l.append(l)]): not a dict, not
    hashable, and refused by json with ValueError. *)

(** [type(v)] *)
Inductive pytype : Type :=
| TNoneType | TBool | TNpBool | TInt | TStr | TDict | TDogmaticDict | TObject
| TList.

Global Instance pytype_eq_dec : EqDecision pytype.
Proof. solve_decision. Defined.

Definition type_of (v : value) : pytype :=
  match v with
  | VNone => TNoneType
  | VBool _ => TBool
  | VNpBool _ => TNpBool
  | VInt _ => TInt
  | VStr _ => TStr
  | VDict false _ => TDict
  | VDict true _ => TDogmaticDict
  | VObj _ => TObject
  | VCircular => TList
  end.

(** [isinstance(v, dict)]: the tracking class derives from [dict]. *)
Definition is_dict (v : value) : bool :=
  match v with VDict _ _ => true | _ => false end.

(** What [json.dumps(v)] does: it returns a text, raises TypeError (a type
    it has no encoding for; a numpy.bool_ is one, at any depth) or raises
    ValueError (a container met again inside itself).  A dict is encoded
    item by item, and the first item that raises decides. *)
Inductive json_outcome : Type :=
| JsonText
| JsonTypeError
| JsonValueError.

Fixpoint json_dumps (v : value) : json_outcome :=
  match v with
  | VNone | VBool _ | VInt _ | VStr _ => JsonText
  | VNpBool _ | VObj _ => JsonTypeError
  | VCircular => JsonValueError
  | VDict _ items =>
      (fix all (l : list (string * value)) : json_outcome :=
         match l with
         | [] => JsonText
         | (_, x) :: l' =>
             match json_dumps x with
             | JsonText => all l'
             | raised => raised
             end
         end) items
  end.

(** [json.dumps(v)] returns. *)
Definition json_serializable (v : value) : bool :=
  match json_dumps v with
  | JsonText => true
  | _ => false
  end.

(** Modelled from the spec: [undogmatize] of [sacred.custom_containers],
    which is not part of the sources at hand: "a deep, recursive
    conversion from the tracking namespace (and any nested tracking
    structures it contains) back into ordinary nested mappings". *)
Fixpoint undogmatize (v : value) : value :=
  match v with
  | VDict _ items =>
      VDict false
        ((fix conv (l : list (string * value)) : list (string * value) :=
            match l with
            | [] => []
            | (k, x) :: l' => (k, undogmatize x) :: conv l'
            end) items)
  | _ => v
  end.

(** No tracking structure at any depth. *)
Fixpoint plain (v : value) : bool :=
  match v with
  | VDict t items =>
      negb t &&
      (fix all (l : list (string * value)) : bool :=
         match l with
         | [] => true
         | (_, x) :: l' => plain x && all l'
         end) items
  | _ => true
  end.

(** ** Exceptions *)

Inductive exn : Type :=
| UnresolvedParameter (arg : string) (available : gset string)
    (* KeyError "'arg' not in preset for ConfigScope. Available options
       are: available" *)
| InvalidKey (key : value)
    (* KeyError 'invalid key "key". ...' *)
| InvalidValue (key : string)
    (* ValueError "invalid value for key. ..." *)
| CircularReference
    (* ValueError "Circular reference detected", from json.dumps *)
| TypeError
| NameError (name : string)
| KeyError (key : string)
| OperatorError.

Inductive result (A : Type) : Type :=
| Ok (a : A)
| Err (e : exn).
Arguments Ok {A} a.
Arguments Err {A} e.

(** Sequencing: the first exception ends the computation. *)
Global Instance result_bind : MBind result := λ A B f r,
  match r with
  | Ok a => f a
  | Err e => Err e
  end.
Global Instance result_ret : MRet result := λ A a, Ok a.

Definition is_ok {A} (r : result A) : bool :=
  match r with Ok _ => true | Err _ => false end.

(** ** Nested dicts: items in insertion order *)

Fixpoint items_get (key : string) (d : list (string * value)) : option value :=
  match d with
  | [] => None
  | (k, x) :: d' => if decide (k = key) then Some x else items_get key d'
  end.

(** [d[key] = v]: a bound key keeps its position, a new key goes last. *)
Fixpoint items_set (key : string) (v : value) (d : list (string * value))
  : list (string * value) :=
  match d with
  | [] => [(key, v)]
  | (k, x) :: d' =>
      if decide (k = key) then (k, v) :: d' else (k, x) :: items_set key v d'
  end.

(** ** The tracking namespace *)

Module DogmaticDict.

(** Modelled from the spec: the class behind [dogmatize] in
    [sacred.custom_containers], which is not part of the sources at hand
    (the "Tracking Namespace"): a primary key-value store, the keys
    present at initialization (authoritative), the read-only side-table
    [fallback], and the records [modified], [typechanges] and
    [ignored_fallback_writes]. *)
Record t : Type := mk {
  store : gmap string value;
  authoritative : gset string;
  fallback : gmap string value;
  modified : gset string;
  typechanges : gmap string (pytype * pytype);
  ignored_fallback_writes : list string
}.

(** Modelled from the spec: [dogmatize] of [sacred.custom_containers]:
    "seeded from the fixed layer; every key present at initialization is
    marked authoritative". *)
Definition dogmatize (fixed : gmap string value) : t :=
  {| store := fixed;
     authoritative := dom fixed;
     fallback := ∅;
     modified := ∅;
     typechanges := ∅;
     ignored_fallback_writes := [] |}.

(** [d.fallback = view] *)
Definition set_fallback (view : gmap string value) (d : t) : t :=
  {| store := store d;
     authoritative := authoritative d;
     fallback := view;
     modified := modified d;
     typechanges := typechanges d;
     ignored_fallback_writes := ignored_fallback_writes d |}.

(** [key in d], on primary keys. *)
Definition contains (key : string) (d : t) : bool :=
  bool_decide (is_Some (store d !! key)).

(** Modelled from the spec: [d[key]], a read: the side-table "backs
    reads for names not otherwise present in the primary store". *)
Definition getitem (key : string) (d : t) : option value :=
  match store d !! key with
  | Some v => Some v
  | None => fallback d !! key
  end.

(** Modelled from the spec: the type record of a write that is accepted:
    "whenever a key's bound value's concrete type differs from the type
    it had the previous time that key was bound, record the transition". *)
Definition track_type (key : string) (v : value) (d : t)
  : gmap string (pytype * pytype) :=
  match store d !! key with
  | Some old =>
      if decide (type_of old = type_of v) then typechanges d
      else <[key := (type_of old, type_of v)]> (typechanges d)
  | None => typechanges d
  end.

(** Modelled from the spec: a name "that currently resolves only through
    this side-table". *)
Definition fallback_only (key : string) (d : t) : bool :=
  bool_decide (store d !! key = None) &&
  bool_decide (is_Some (fallback d !! key)).

(** Modelled from the spec: [d[key] = v], a write.  "Writing to a key
    that was present at initialization records that key in modified and
    reverts the write"; any other write is accepted, and one to a name
    served by the side-table alone "is also appended to
    ignored_fallback_writes". *)
Definition setitem (key : string) (v : value) (d : t) : t :=
  if decide (key ∈ authoritative d) then
    {| store := store d;
       authoritative := authoritative d;
       fallback := fallback d;
       modified := {[key]} ∪ modified d;
       typechanges := typechanges d;
       ignored_fallback_writes := ignored_fallback_writes d |}
  else
    {| store := <[key := v]> (store d);
       authoritative := authoritative d;
       fallback := fallback d;
       modified := modified d;
       typechanges := track_type key v d;
       ignored_fallback_writes :=
         if fallback_only key d
         then ignored_fallback_writes d ++ [key]
         else ignored_fallback_writes d |}.

(** Modelled from the spec: [d.update(other)], the merge of a mapping:
    one write per key of [other]. *)
Definition update (other : gmap string value) (d : t) : t :=
  map_fold setitem d other.

(** Modelled from the spec: [d.revelation()]: "keys present now minus
    keys present at start". *)
Definition revelation (d : t) : gset string :=
  dom (store d) ∖ authoritative d.

(** Modelled from the spec: [undogmatize(d)] of a namespace: its store as
    an ordinary mapping of ordinary values. *)
Definition undogmatize_dict (d : t) : gmap string value :=
  undogmatize <$> store d.

(** A store in which nothing but an in-place change of a nested dict
    happened: used by [recursive_fill_in], which mutates [d[key]]
    without a write to [d]. *)
Definition with_store (s : gmap string value) (d : t) : t :=
  {| store := s;
     authoritative := authoritative d;
     fallback := fallback d;
     modified := modified d;
     typechanges := typechanges d;
     ignored_fallback_writes := ignored_fallback_writes d |}.

End DogmaticDict.

(** ** recursive_fill_in *)

(** [recursive_fill_in(config, preset)] on a nested [config].  [preset] is
    whatever the enclosing preset holds under the same key:
    - a dict: the loop of the source, [pv] being [preset[key]];
    - a str: [for key in preset] runs over its characters, and
      [preset[key]] with a str index raises TypeError, so the loop only
      survives characters that are keys of [config] bound to a non-dict;
    - anything else is not iterable, or, for a list that holds itself,
      yields a key that cannot be hashed: TypeError either way. *)
Fixpoint fill_in_items (preset : value) (config : list (string * value))
  : result (list (string * value)) :=
  match preset with
  | VDict _ pitems =>
      (fix loop (ps : list (string * value)) (config : list (string * value))
         : result (list (string * value)) :=
         match ps with
         | [] => Ok config
         | (key, pv) :: ps' =>
             match items_get key config with
             | None => loop ps' (items_set key pv config)
             | Some (VDict tr sub) =>
                 match fill_in_items pv sub with
                 | Ok sub' => loop ps' (items_set key (VDict tr sub') config)
                 | Err e => Err e
                 end
             | Some _ => loop ps' config
             end
         end) pitems config
  | VStr s =>
      (fix loop (cs : string) : result (list (string * value)) :=
         match cs with
         | EmptyString => Ok config
         | String c cs' =>
             match items_get (String c EmptyString) config with
             | None => Err TypeError
             | Some (VDict _ _) => Err TypeError
             | Some _ => loop cs'
             end
         end) s
  | _ => Err TypeError
  end.

(** One turn of the loop of [recursive_fill_in] on the namespace:
    [config[key] = preset[key]] is a write to the namespace, the recursive
    call changes the nested dict [config[key]] in place. *)
Definition fill_in_step (key : string) (pv : value)
    (acc : result DogmaticDict.t) : result DogmaticDict.t :=
  config ← acc;
  match DogmaticDict.store config !! key with
  | None => Ok (DogmaticDict.setitem key pv config)
  | Some (VDict tr sub) =>
      sub' ← fill_in_items pv sub;
      Ok (DogmaticDict.with_store
            (<[key := VDict tr sub']> (DogmaticDict.store config)) config)
  | Some _ => Ok config
  end.

Definition recursive_fill_in (config : DogmaticDict.t)
    (preset : gmap string value) : result DogmaticDict.t :=
  map_fold fill_in_step (Ok config) preset.

(** ** ConfigSummary *)

(** A dict ([entries]) with four attributes. *)
Record ConfigSummary : Type := {
  entries : gmap string value;
  added_values : gset string;
  ignored_fallback_writes : list string;
  modified : gset string;
  typechanges : gmap string (pytype * pytype)
}.

(** ** ConfigDict *)

Definition is_letter (c : ascii) : bool :=
  let n := nat_of_ascii c in
  ((65 <=? n)%nat && (n <=? 90)%nat) || ((97 <=? n)%nat && (n <=? 122)%nat).

Definition is_digit (c : ascii) : bool :=
  let n := nat_of_ascii c in (48 <=? n)%nat && (n <=? 57)%nat.

Fixpoint all_chars (p : ascii → bool) (s : string) : bool :=
  match s with
  | EmptyString => true
  | String c s' => p c && all_chars p s'
  end.

(** Modelled from the spec: the pattern [PYTHON_IDENTIFIER] of
    [sacred.utils], which is not part of the sources at hand: a key "must
    be a syntactically valid identifier-shaped string and must not begin
    with the private-name marker". *)
Definition PYTHON_IDENTIFIER (key : string) : bool :=
  match key with
  | EmptyString => false
  | String c rest =>
      is_letter c &&
      all_chars (λ x, is_letter x || is_digit x || Ascii.eqb x "_"%char) rest
  end.

Record ConfigDict : Type := { _conf : gmap string value }.

(** The body of the loop of [ConfigDict.__init__]; a key of the literal is
    any value. *)
Definition ConfigDict_init_step (conf : gmap string value)
    (item : value * value) : result (gmap string value) :=
  let '(key, v) := item in
  match key with
  | VStr k =>
      if PYTHON_IDENTIFIER k then
        match v with
        | VNpBool b => Ok (<[k := VBool b]> conf)
        | _ =>
            match json_dumps v with
            | JsonText => Ok (<[k := undogmatize v]> conf)
            | JsonTypeError => Err (InvalidValue k)
            | JsonValueError => Err CircularReference
            end
        end
      else Err (InvalidKey key)
  | _ => Err (InvalidKey key)
  end.

Fixpoint ConfigDict_init_loop (conf : gmap string value)
    (d : list (value * value)) : result (gmap string value) :=
  match d with
  | [] => Ok conf
  | item :: d' =>
      conf' ← ConfigDict_init_step conf item;
      ConfigDict_init_loop conf' d'
  end.

(** [ConfigDict(d)], [d] given by its items in iteration order. *)
Definition ConfigDict_init (d : list (value * value)) : result ConfigDict :=
  conf ← ConfigDict_init_loop ∅ d;
  Ok {| _conf := conf |}.

(** [ConfigDict.__call__], [preset] being a mapping.  (What the merge does
    with a [preset] that is None is decided by the tracking class.) *)
Definition ConfigDict_call (self : ConfigDict)
    (fixed : option (gmap string value)) (preset : gmap string value)
    (fallback : option (gmap string value)) : ConfigSummary :=
  let result := DogmaticDict.dogmatize (default ∅ fixed) in
  let result := DogmaticDict.update preset result in
  let result := DogmaticDict.update (_conf self) result in
  {| entries := DogmaticDict.undogmatize_dict result;
     added_values := DogmaticDict.revelation result;
     ignored_fallback_writes := [];
     modified := DogmaticDict.modified result;
     typechanges := DogmaticDict.typechanges result |}.

(** ** ConfigScope *)

(** The body of a configuration function, "plain assignment statements".
    An operator of the host language is a partial function on values
    ([None]: it raises). *)
Inductive expr : Type :=
| EConst (v : value)
| EName (x : string)
| EUnOp (op : value → option value) (e : expr)
| EBinOp (op : value → value → option value) (e1 e2 : expr).

Inductive stmt : Type :=
| Assign (target : string) (e : expr).

Definition target_of (s : stmt) : string :=
  match s with Assign x _ => x end.

(** What [ConfigScope.__init__] keeps of the function. *)
Record ConfigScope : Type := {
  arg_spec_args : list string;
  _body_code : list stmt;
  func_globals : gmap string value
}.

(** A name is read from the local namespace, then from the globals. *)
Definition load_name (globals : gmap string value) (locals : DogmaticDict.t)
    (x : string) : result value :=
  match DogmaticDict.getitem x locals with
  | Some v => Ok v
  | None =>
      match globals !! x with
      | Some v => Ok v
      | None => Err (NameError x)
      end
  end.

Definition apply_op (r : option value) : result value :=
  match r with
  | Some v => Ok v
  | None => Err OperatorError
  end.

Fixpoint eval_expr (globals : gmap string value) (locals : DogmaticDict.t)
    (e : expr) : result value :=
  match e with
  | EConst v => Ok v
  | EName x => load_name globals locals x
  | EUnOp op e1 =>
      v1 ← eval_expr globals locals e1;
      apply_op (op v1)
  | EBinOp op e1 e2 =>
      v1 ← eval_expr globals locals e1;
      v2 ← eval_expr globals locals e2;
      apply_op (op v1 v2)
  end.

(** An assignment stores into the local namespace. *)
Definition exec_stmt (globals : gmap string value) (s : stmt)
    (locals : DogmaticDict.t) : result DogmaticDict.t :=
  match s with
  | Assign x e =>
      v ← eval_expr globals locals e;
      Ok (DogmaticDict.setitem x v locals)
  end.

(** [eval(self._body_code, copy(globals), cfg_locals)] *)
Fixpoint exec_body (globals : gmap string value) (code : list stmt)
    (locals : DogmaticDict.t) : result DogmaticDict.t :=
  match code with
  | [] => Ok locals
  | s :: code' =>
      locals' ← exec_stmt globals s locals;
      exec_body globals code' locals'
  end.

(** The loop over the declared parameters. *)
Fixpoint bind_args (args : list string) (preset fallback : gmap string value)
    (available_entries : gset string)
    (cfg_locals : DogmaticDict.t) (fallback_view : gmap string value)
  : result (DogmaticDict.t * gmap string value) :=
  match args with
  | [] => Ok (cfg_locals, fallback_view)
  | arg :: args' =>
      if decide (arg ∈ available_entries) then
        match preset !! arg with
        | Some v =>
            bind_args args' preset fallback available_entries
              (DogmaticDict.setitem arg v cfg_locals) fallback_view
        | None =>
            match fallback !! arg with
            | Some v =>
                bind_args args' preset fallback available_entries
                  cfg_locals (<[arg := v]> fallback_view)
            | None => Err (KeyError arg)
            end
        end
      else Err (UnresolvedParameter arg available_entries)
  end.

(** The loop that fills the summary: the TypeError of [json.dumps] is
    caught, its ValueError is not. *)
Definition harvest_step (key : string) (v : value)
    (acc : result (gmap string value)) : result (gmap string value) :=
  config_summary ← acc;
  if String.prefix "_" key then Ok config_summary
  else
    match v with
    | VNpBool b => Ok (<[key := VBool b]> config_summary)
    | _ =>
        match json_dumps v with
        | JsonText => Ok (<[key := undogmatize v]> config_summary)
        | JsonTypeError => Ok config_summary
        | JsonValueError => Err CircularReference
        end
    end.

Definition harvest (cfg_locals : DogmaticDict.t)
  : result (gmap string value) :=
  map_fold harvest_step (Ok ∅) (DogmaticDict.store cfg_locals).

(** [ConfigScope.__call__] up to the execution of the body: the namespace
    the body leaves. *)
Definition ConfigScope_run (self : ConfigScope)
    (fixed preset fallback : option (gmap string value))
  : result DogmaticDict.t :=
  let cfg_locals := DogmaticDict.dogmatize (default ∅ fixed) in
  let fallback := default ∅ fallback in
  let preset := default ∅ preset in
  let fallback_view : gmap string value := ∅ in
  let available_entries := dom preset ∪ dom fallback in
  '(cfg_locals, fallback_view) ←
    bind_args (arg_spec_args self) preset fallback available_entries
      cfg_locals fallback_view;
  let cfg_locals := DogmaticDict.set_fallback fallback_view cfg_locals in
  exec_body (func_globals self) (_body_code self) cfg_locals.

(** [ConfigScope.__call__].  [added_values] is the set [revelation()]
    returns at that point; the three other attributes are the namespace's
    own objects, so the summary shows them as they are at the end. *)
Definition ConfigScope_call (self : ConfigScope)
    (fixed preset fallback : option (gmap string value))
  : result ConfigSummary :=
  cfg_locals ← ConfigScope_run self fixed preset fallback;
  let added := DogmaticDict.revelation cfg_locals in
  cfg_locals ← recursive_fill_in cfg_locals (default ∅ preset);
  config_summary ← harvest cfg_locals;
  Ok {| entries := config_summary;
        added_values := added;
        ignored_fallback_writes :=
          DogmaticDict.ignored_fallback_writes cfg_locals;
        modified := DogmaticDict.modified cfg_locals;
        typechanges := DogmaticDict.typechanges cfg_locals |}.

(** ** The chain *)

Inductive ConfigEntry : Type :=
| Scope (c : ConfigScope)
| Literal (c : ConfigDict).

(** [config(fixed=fixed, preset=final_config, fallback=fallback)] *)
Definition call_entry (config : ConfigEntry)
    (fixed preset fallback : gmap string value) : result ConfigSummary :=
  match config with
  | Scope c => ConfigScope_call c (Some fixed) (Some preset) (Some fallback)
  | Literal c => Ok (ConfigDict_call c (Some fixed) preset (Some fallback))
  end.

Definition chain_step (fixed fallback : gmap string value)
    (acc : result (gmap string value * list ConfigSummary))
    (config : ConfigEntry)
  : result (gmap string value * list ConfigSummary) :=
  '(final_config, config_summaries) ← acc;
  cfg ← call_entry config fixed final_config fallback;
  Ok (entries cfg ∪ final_config, config_summaries ++ [cfg]).

Definition chain_evaluate_config_scopes (config_scopes : list ConfigEntry)
    (fixed preset fallback : option (gmap string value))
  : result (gmap string value * list ConfigSummary) :=
  let fixed := default ∅ fixed in
  let fallback := default ∅ fallback in
  let final_config := default ∅ preset in
  '(final_config, config_summaries) ←
    foldl (chain_step fixed fallback) (Ok (final_config, [])) config_scopes;
  let final_config :=
    match config_scopes with
    | [] => fixed ∪ final_config
    | _ => final_config
    end in
  Ok (undogmatize <$> final_config, config_summaries).

(** ** The body text of a function *)

(** Text is a [string] of characters with code points below 256. *)

(** [c.isspace()], which is also the class [\s] of [re] on text. *)
Definition py_isspace (c : ascii) : bool :=
  let n := nat_of_ascii c in
  ((9 <=? n)%nat && (n <=? 13)%nat) || ((28 <=? n)%nat && (n <=? 32)%nat)
  || (n =? 133)%nat || (n =? 160)%nat.

Fixpoint lstrip (s : string) : string :=
  match s with
  | EmptyString => EmptyString
  | String c s' => if py_isspace c then lstrip s' else s
  end.

Fixpoint rstrip (s : string) : string :=
  match s with
  | EmptyString => EmptyString
  | String c s' =>
      match rstrip s' with
      | EmptyString => if py_isspace c then EmptyString else String c EmptyString
      | r => String c r
      end
  end.

(** [s.strip()] *)
Definition strip (s : string) : string := lstrip (rstrip s).

Definition is_empty_or_comment (line : string) : bool :=
  let sline := strip line in
  bool_decide (sline = "") || String.prefix "#" sline.

(** [line[start:]] *)
Fixpoint str_from (start : nat) (line : string) : string :=
  match start, line with
  | O, _ => line
  | S n, EmptyString => EmptyString
  | S n, String _ line' => str_from n line'
  end.

(** The index at which the loop of [dedent_line] breaks, counted from
    [i]; [None] when [zip(line, indent)] runs out first. *)
Fixpoint first_mismatch (line indent : string) (i : nat) : option nat :=
  match line, indent with
  | String line_sym line', String indent_sym indent' =>
      if Ascii.eqb line_sym indent_sym
      then first_mismatch line' indent' (S i)
      else Some i
  | _, _ => None
  end.

Definition dedent_line (line indent : string) : string :=
  let start :=
    match first_mismatch line indent 0 with
    | Some i => i
    | None => String.length indent
    end in
  str_from start line.

Definition newline : string := String (ascii_of_nat 10) EmptyString.

(** [body.split('\n')] *)
Fixpoint split_lines (body : string) : list string :=
  match body with
  | EmptyString => [EmptyString]
  | String c body' =>
      if Ascii.eqb c (ascii_of_nat 10) then EmptyString :: split_lines body'
      else
        match split_lines body' with
        | line :: lines => String c line :: lines
        | [] => [String c EmptyString]
        end
  end.

(** [re.match('^\s*', line).group()] *)
Fixpoint leading_whitespace (line : string) : string :=
  match line with
  | EmptyString => EmptyString
  | String c line' =>
      if py_isspace c then String c (leading_whitespace line')
      else EmptyString
  end.

(** The first loop of [dedent_function_body]. *)
Fixpoint find_indent (lines : list string) : string :=
  match lines with
  | [] => EmptyString
  | line :: lines' =>
      if is_empty_or_comment line then find_indent lines'
      else leading_whitespace line
  end.

Definition dedent_function_body (body : string) : string :=
  let lines := split_lines body in
  let indent := find_indent lines in
  let out_lines := map (λ line, dedent_line line indent) lines in
  String.concat newline out_lines.

(** ** Notions used to state the properties *)

(** What one turn of the harvest loop, when it does not raise, puts into
    the summary for a key of the namespace bound to [v]: nothing, or one
    value. *)
Definition harvest_value (key : string) (v : value) : option value :=
  if String.prefix "_" key then None
  else
    match v with
    | VNpBool b => Some (VBool b)
    | _ => if json_serializable v then Some (undogmatize v) else None
    end.

(** A namespace that was seeded from [fixed] and still holds it. *)
Definition seeded (fixed : gmap string value) (d : DogmaticDict.t) : Prop :=
  DogmaticDict.authoritative d = dom fixed ∧
  ∀ k v, fixed !! k = Some v → DogmaticDict.store d !! k = Some v.

(** The body has an assignment to [k]. *)
Definition assigns (code : list stmt) (k : string) : Prop :=
  k ∈ map target_of code.

(** A mapping of plain values. *)
Definition plain_map (m : gmap string value) : Prop :=
  ∀ k v, m !! k = Some v → plain v = true.

(** What [recursive_fill_in] leaves under [k] in a store [s'], in terms of
    the store [s] it started from and of [preset]: an unbound key is taken
    from [preset]; a key bound to something that is not a dict is kept; a
    key bound to a dict stays a dict, and the same one where [preset] has
    nothing for it. *)
Definition filled_in (s preset s' : gmap string value) (k : string) : Prop :=
  match s !! k with
  | None => s' !! k = preset !! k
  | Some v =>
      if is_dict v then
        (preset !! k = None → s' !! k = Some v) ∧
        (∃ v', s' !! k = Some v' ∧ is_dict v' = true)
      else s' !! k = Some v
  end.



(** The checks of [ConfigDict.__init__] on one item. *)
Definition valid_key (key : value) : bool :=
  match key with
  | VStr k => PYTHON_IDENTIFIER k
  | _ => false
  end.

Definition valid_value (v : value) : bool :=
  match v with
  | VNpBool _ => true
  | _ => json_serializable v
  end.

Definition valid_item (item : value * value) : bool :=
  valid_key item.1 && valid_value item.2.

(** What [ConfigDict.__init__] stores for a value. *)
Definition stored_value (v : value) : value :=
  match v with
  | VNpBool b => VBool b
  | _ => undogmatize v
  end.

(** The longest prefix two texts share. *)
Fixpoint common_prefix (a b : string) : string :=
  match a, b with
  | String x a', String y b' =>
      if Ascii.eqb x y then String x (common_prefix a' b') else EmptyString
  | _, _ => EmptyString
  end.

(** The line a body has before the first line that counts, and that
    line. *)
Definition first_code_line (lines : list string) (line : string) : Prop :=
  ∃ pre post,
    lines = (pre ++ line :: post)%list ∧
    Forall (λ l, is_empty_or_comment l = true) pre ∧
    is_empty_or_comment line = false.

(** Two operators for the examples: [x + y] and [x * y] where both are int,
    and [x + y] where both are str; the examples apply them to nothing
    else. *)
Definition py_add (x y : value) : option value :=
  match x, y with
  | VInt a, VInt b => Some (VInt (a + b))
  | VStr a, VStr b => Some (VStr (a ++ b)%string)
  | _, _ => None
  end.

Definition py_mul (x y : value) : option value :=
  match x, y with
  | VInt a, VInt b => Some (VInt (a * b))
  | _, _ => None
  end.

(** [def cfg(): pass] *)
Definition empty_scope : ConfigScope :=
  {| arg_spec_args := []; _body_code := []; func_globals := ∅ |}.

(** [def cfg(): x = 5] *)
Definition scope_x : ConfigScope :=
  {| arg_spec_args := [];
     _body_code := [Assign "x" (EConst (VInt 5))];
     func_globals := ∅ |}.

(** [def cfg(a): b = a * 2] *)
Definition scope_b : ConfigScope :=
  {| arg_spec_args := ["a"];
     _body_code := [Assign "b" (EBinOp py_mul (EName "a") (EConst (VInt 2)))];
     func_globals := ∅ |}.

(** [def cfg(run_id): run_id = run_id + "_x"] *)
Definition scope_run_id : ConfigScope :=
  {| arg_spec_args := ["run_id"];
     _body_code :=
       [Assign "run_id"
          (EBinOp py_add (EName "run_id") (EConst (VStr "_x")))];
     func_globals := ∅ |}.

(** [def cfg(): flag = numpy.True_; obj = object(); _tmp = 3] *)
Definition scope_odd_values : ConfigScope :=
  {| arg_spec_args := [];
     _body_code :=
       [Assign "flag" (EConst (VNpBool true));
        Assign "obj" (EConst (VObj 0));
        Assign "_tmp" (EConst (VInt 3))];
     func_globals := ∅ |}.

(** ** Notions used to state further properties *)

(** The first character of a text, if any. *)
Definition str_head (s : string) : option ascii :=
  match s with
  | EmptyString => None
  | String c _ => Some c
  end.

(** A text without a line break. *)
Definition single_line (s : string) : bool :=
  all_chars (λ c, negb (Ascii.eqb c (ascii_of_nat 10))) s.

(** What [recursive_fill_in] leaves under [k] in a nested dict [c'], in
    terms of the dict [c] it started from and of the items [ps] of the
    preset: the account of [filled_in], on items. *)
Definition items_filled_in (c ps c' : list (string * value)) (k : string)
  : Prop :=
  match items_get k c with
  | None => items_get k c' = items_get k ps
  | Some v =>
      if is_dict v then
        (items_get k ps = None → items_get k c' = Some v) ∧
        (∃ v', items_get k c' = Some v' ∧ is_dict v' = true)
      else items_get k c' = Some v
  end.

(** * Properties *)

(** ** The tracking namespace: what a write keeps *)

Section namespace_facts.
Import DogmaticDict.

Lemma setitem_authoritative key v d :
  authoritative (setitem key v d) = authoritative d.
Proof. unfold setitem. by case_decide. Qed.

Lemma setitem_fallback key v d :
  fallback (setitem key v d) = fallback d.
Proof. unfold setitem. by case_decide. Qed.

Lemma setitem_store_reverted key v d :
  key ∈ authoritative d → store (setitem key v d) = store d.
Proof. intros Hk. unfold setitem. by rewrite decide_True. Qed.

Lemma setitem_store_accepted key v d :
  key ∉ authoritative d → store (setitem key v d) = <[key := v]> (store d).
Proof. intros Hk. unfold setitem. by rewrite decide_False. Qed.

Lemma setitem_store_other key v d k :
  k ≠ key → store (setitem key v d) !! k = store d !! k.
Proof.
  intros Hne. unfold setitem. case_decide; simpl; [done|].
  by rewrite lookup_insert_ne.
Qed.

Lemma setitem_store_authoritative key v d k :
  k ∈ authoritative d → store (setitem key v d) !! k = store d !! k.
Proof.
  intros Hk. destruct (decide (k = key)) as [->|Hne].
  - by rewrite setitem_store_reverted.
  - by apply setitem_store_other.
Qed.

Lemma setitem_modified_mono key v d :
  modified d ⊆ modified (setitem key v d).
Proof. unfold setitem. case_decide; simpl; set_solver. Qed.


Lemma setitem_dom_mono key v d :
  dom (store d) ⊆ dom (store (setitem key v d)).
Proof. unfold setitem. case_decide; simpl; [done|]. set_solver. Qed.

(** A write to a key that is neither bound, nor authoritative, nor
    served by the side-table changes the store and nothing else. *)
Lemma setitem_fresh key v d :
  store d !! key = None → fallback d !! key = None →
  key ∉ authoritative d →
  setitem key v d = with_store (<[key := v]> (store d)) d.
Proof.
  intros Hs Hf Hna. unfold setitem, with_store.
  rewrite decide_False by done. unfold track_type, fallback_only.
  rewrite Hs, Hf.
  rewrite (bool_decide_eq_false_2 (is_Some None)) by (by intros [? ?]).
  by rewrite andb_false_r.
Qed.

Lemma with_store_id d : with_store (store d) d = d.
Proof. by destruct d. Qed.

Lemma with_store_twice s1 s2 d :
  with_store s1 (with_store s2 d) = with_store s1 d.
Proof. done. Qed.

End namespace_facts.

Section seeded_facts.
Import DogmaticDict.
Variable fixed : gmap string value.

Lemma dogmatize_seeded : seeded fixed (dogmatize fixed).
Proof. by split. Qed.

Lemma seeded_bound d : seeded fixed d → authoritative d ⊆ dom (store d).
Proof.
  intros [Ha Hs] k. rewrite Ha. intros [v Hv]%elem_of_dom.
  apply elem_of_dom. exists v. by apply Hs.
Qed.

Lemma setitem_seeded key v d : seeded fixed d → seeded fixed (setitem key v d).
Proof.
  intros [Ha Hs]. split.
  - by rewrite setitem_authoritative.
  - intros k x Hk. rewrite setitem_store_authoritative; [by apply Hs|].
    rewrite Ha. apply elem_of_dom. by exists x.
Qed.

Lemma set_fallback_seeded view d :
  seeded fixed d → seeded fixed (set_fallback view d).
Proof. by intros [Ha Hs]. Qed.

Lemma update_seeded other d : seeded fixed d → seeded fixed (update other d).
Proof.
  intros Hd. unfold update.
  apply (map_fold_weak_ind (λ r _, seeded fixed r)); [done|].
  intros key v m r _ Hr. by apply setitem_seeded.
Qed.


Lemma update_modified_mono other d : modified d ⊆ modified (update other d).
Proof.
  unfold update.
  apply (map_fold_weak_ind (λ r _, modified d ⊆ modified r)); [done|].
  intros key v m r _ Hr. etrans; [exact Hr|apply setitem_modified_mono].
Qed.

End seeded_facts.

(** ** Running the body *)

Section body_facts.
Import DogmaticDict.
Variable globals : gmap string value.

Lemma exec_stmt_inv s d d' :
  exec_stmt globals s d = Ok d' →
  ∃ v, eval_expr globals d (match s with Assign _ e => e end) = Ok v ∧
       d' = setitem (target_of s) v d.
Proof.
  destruct s as [x e]; simpl. unfold mbind, result_bind.
  destruct (eval_expr globals d e) as [v|]; [|done].
  intros [= <-]. by exists v.
Qed.

Lemma exec_body_cons s code d d'' :
  exec_body globals (s :: code) d = Ok d'' →
  ∃ d', exec_stmt globals s d = Ok d' ∧ exec_body globals code d' = Ok d''.
Proof.
  simpl. unfold mbind, result_bind at 1.
  destruct (exec_stmt globals s d) as [d'|]; [|done]. by exists d'.
Qed.


(** An invariant of single writes is an invariant of the body. *)
Lemma exec_body_ind (P : t → Prop) :
  (∀ key v d, P d → P (setitem key v d)) →
  ∀ code d d', exec_body globals code d = Ok d' → P d → P d'.
Proof.
  intros Hstep code. induction code as [|s code IH]; intros d d'.
  - by intros [= <-].
  - intros (d1 & Hs & Hrest)%exec_body_cons Hd.
    apply exec_stmt_inv in Hs as (v & _ & ->).
    eapply IH; [exact Hrest|]. by apply Hstep.
Qed.

Lemma exec_body_seeded fixed code d d' :
  exec_body globals code d = Ok d' → seeded fixed d → seeded fixed d'.
Proof. apply exec_body_ind. intros. by apply setitem_seeded. Qed.

Lemma exec_body_fallback code d d' :
  exec_body globals code d = Ok d' → fallback d' = fallback d.
Proof.
  intros H. eapply (exec_body_ind (λ x, fallback x = fallback d)); eauto.
  intros key v d0 <-. apply setitem_fallback.
Qed.



Lemma exec_body_dom_mono code d d' :
  exec_body globals code d = Ok d' → dom (store d) ⊆ dom (store d').
Proof.
  intros H.
  eapply (exec_body_ind (λ x, dom (store d) ⊆ dom (store x))); eauto.
  intros key v d0 Hd. etrans; [exact Hd|apply setitem_dom_mono].
Qed.


(** A key the body does not assign keeps its binding, or its absence. *)
Lemma exec_body_untouched code d d' k :
  exec_body globals code d = Ok d' →
  ¬ assigns code k → store d' !! k = store d !! k.
Proof.
  unfold assigns. revert d.
  induction code as [|s code IH]; intros d Hex Hin; simpl in Hin.
  - by injection Hex as <-.
  - apply exec_body_cons in Hex as (d1 & Hs & Hrest).
    apply exec_stmt_inv in Hs as (v & _ & ->).
    rewrite not_elem_of_cons in Hin. destruct Hin as [Hne Hin].
    rewrite (IH _ Hrest Hin). by apply setitem_store_other.
Qed.

End body_facts.

(** ** Binding the declared parameters *)

Section bind_args_facts.
Import DogmaticDict.
Variables preset fallback : gmap string value.
Variable available : gset string.

(** The first declared parameter that is not available, if any. *)
Lemma bind_args_unresolved args d view :
  (∃ arg, arg ∈ args ∧ arg ∉ available) →
  available = dom preset ∪ dom fallback →
  ∃ pre arg post,
    args = (pre ++ arg :: post)%list ∧ (∀ a, a ∈ pre → a ∈ available) ∧
    (arg ∉ available) ∧
    bind_args args preset fallback available d view
    = Err (UnresolvedParameter arg available).
Proof.
  intros Hex Hav. revert d view.
  induction args as [|a args IH]; intros d view.
  - destruct Hex as (arg & Hin & _). by apply elem_of_nil in Hin.
  - destruct (decide (a ∈ available)) as [Ha|Ha].
    + destruct Hex as (arg & Hin & Hna).
      apply elem_of_cons in Hin as [->|Hin]; [done|].
      assert (∃ arg, arg ∈ args ∧ arg ∉ available) as Hex' by eauto.
      simpl. rewrite decide_True by done.
      assert (is_Some (preset !! a) ∨
              (preset !! a = None ∧ is_Some (fallback !! a))) as Hcase.
      { rewrite Hav in Ha. apply elem_of_union in Ha.
        destruct (preset !! a) eqn:Hp; [left; eauto|right].
        split; [done|]. destruct Ha as [Ha|Ha].
        - apply elem_of_dom in Ha. rewrite Hp in Ha. by destruct Ha.
        - by apply elem_of_dom in Ha. }
      destruct Hcase as [[v Hv]|[Hp [v Hv]]].
      * rewrite Hv.
        destruct (IH Hex' (setitem a v d) view)
          as (pre & arg' & post & -> & Hpre & Hn & ->).
        exists (a :: pre), arg', post. repeat split; try done.
        intros x [->|Hx]%elem_of_cons; auto.
      * rewrite Hp, Hv.
        destruct (IH Hex' d (<[a := v]> view))
          as (pre & arg' & post & -> & Hpre & Hn & ->).
        exists (a :: pre), arg', post. repeat split; try done.
        intros x [->|Hx]%elem_of_cons; auto.
    + exists [], a, args. simpl. rewrite decide_False by done.
      repeat split; try done. intros x Hx. by apply elem_of_nil in Hx.
Qed.

Lemma bind_args_inv args d view d' view' :
  bind_args args preset fallback available d view = Ok (d', view') →
  (∀ P : t → Prop, (∀ key v x, P x → P (setitem key v x)) → P d → P d') ∧
  (∀ k v, view' !! k = Some v →
          view !! k = Some v ∨ (preset !! k = None ∧ fallback !! k = Some v)) ∧
  (∀ k, k ∈ args → preset !! k = None → view' !! k = fallback !! k) ∧
  (∀ k, is_Some (view !! k) → is_Some (view' !! k)).
Proof.
  revert d view. induction args as [|a args IH]; intros d view; simpl.
  - intros [= <- <-]. split_and!; try done.
    + intros k v Hk. by left.
    + intros k Hk. by apply elem_of_nil in Hk.
  - case_decide as Ha; [|done].
    destruct (preset !! a) as [pv|] eqn:Hp.
    + intros (HP & Hv & Hin & Hmono)%IH. repeat split; try done.
      * intros P Hstep HPd. apply HP; [done|]. by apply Hstep.
      * intros k [->|Hk]%elem_of_cons Hpk; [congruence|]. by apply Hin.
    + destruct (fallback !! a) as [fv|] eqn:Hf; [|done].
      intros (HP & Hv & Hin & Hmono)%IH. repeat split; try done.
      * intros k v Hk. destruct (Hv k v Hk) as [Hk'|Hk']; [|by right].
        destruct (decide (a = k)) as [->|Hne].
        -- rewrite lookup_insert_eq in Hk'. right. split; congruence.
        -- rewrite lookup_insert_ne in Hk' by done. by left.
      * intros k Hk Hpk. apply elem_of_cons in Hk as [Hk|Hk]; [|by apply Hin].
        subst k. destruct (Hmono a) as [v Hv'].
        { rewrite lookup_insert_eq. eauto. }
        destruct (Hv a v Hv') as [Hk'|[_ Hk']].
        -- rewrite lookup_insert_eq in Hk'. congruence.
        -- congruence.
      * intros k Hk. apply Hmono.
        destruct (decide (a = k)) as [->|Hne].
        -- rewrite lookup_insert_eq. eauto.
        -- by rewrite lookup_insert_ne.
Qed.

(** The store after the loop: a declared parameter found in [preset] is
    bound to the preset value unless the key is authoritative; every
    other key is as before. *)
Lemma bind_args_store args d view d' view' k :
  bind_args args preset fallback available d view = Ok (d', view') →
  store d' !! k =
    match preset !! k with
    | Some v =>
        if decide (k ∈ args ∧ k ∉ authoritative d) then Some v
        else store d !! k
    | None => store d !! k
    end.
Proof.
  revert d view. induction args as [|a args IH]; intros d view;
    cbn [bind_args].
  - intros [= <- <-]. destruct (preset !! k); [|done].
    rewrite decide_False; [done|]. intros [Hk _]. by apply elem_of_nil in Hk.
  - destruct (decide (a ∈ available)) as [Ha|Ha]; [|done].
    destruct (preset !! a) as [pv|] eqn:Hp.
    + intros Hb. rewrite (IH _ _ Hb). rewrite setitem_authoritative.
      destruct (decide (k = a)) as [->|Hne].
      * rewrite Hp. destruct (decide (a ∈ authoritative d)) as [Hau|Hau].
        -- rewrite !decide_False by tauto. by rewrite setitem_store_reverted.
        -- rewrite setitem_store_accepted, lookup_insert_eq by done.
           rewrite (decide_True (P := a ∈ a :: args ∧ _)); [|
             split; [apply elem_of_cons; by left|done]].
           by destruct (decide _).
      * rewrite setitem_store_other by done.
        destruct (preset !! k); [|done].
        apply decide_ext. rewrite elem_of_cons. tauto.
    + destruct (fallback !! a) as [fv|] eqn:Hf; [|done].
      intros Hb. rewrite (IH _ _ Hb).
      destruct (preset !! k) eqn:Hpk; [|done].
      apply decide_ext. rewrite elem_of_cons.
      split; [tauto|]. intros [[->|?] ?]; [congruence|tauto].
Qed.

End bind_args_facts.

(** ** Filling in the unused presets *)

Section fill_in_facts.
Import DogmaticDict.

Lemma filled_in_start s k : filled_in s ∅ s k.
Proof.
  unfold filled_in. destruct (s !! k) as [v|] eqn:Hs; [|done].
  destruct (is_dict v) eqn:Hv; [|done]. split; [done|]. by exists v.
Qed.

Lemma filled_in_bound s m s' k :
  filled_in s m s' k → is_Some (s !! k) → is_Some (s' !! k).
Proof.
  unfold filled_in. intros H [v Hv]. rewrite Hv in H.
  destruct (is_dict v); [|by eexists].
  destruct H as [_ (v' & -> & _)]. by eexists.
Qed.

(** A turn of the loop for another key leaves the account of [k]. *)
Lemma filled_in_other s m s1 s2 k i x :
  k ≠ i → s2 !! k = s1 !! k →
  filled_in s m s1 k → filled_in s (<[i := x]> m) s2 k.
Proof.
  intros Hne Heq. unfold filled_in.
  rewrite Heq, lookup_insert_ne by done. done.
Qed.

(** Before the turn for [i], the store holds under [i] what it held at
    the start. *)
Lemma filled_in_pending s m s1 i :
  m !! i = None → filled_in s m s1 i → s1 !! i = s !! i.
Proof.
  unfold filled_in. intros Hm. rewrite Hm.
  destruct (s !! i) as [v|]; [|done].
  destruct (is_dict v); [|done]. intros [H _]. by apply H.
Qed.

Lemma recursive_fill_in_spec d preset d' :
  authoritative d ⊆ dom (store d) →
  (∀ k, is_Some (preset !! k) → fallback d !! k = None) →
  recursive_fill_in d preset = Ok d' →
  d' = with_store (store d') d ∧
  ∀ k, filled_in (store d) preset (store d') k.
Proof.
  intros Hbound. unfold recursive_fill_in. revert d'.
  apply (map_fold_weak_ind (λ r m,
    ∀ d', (∀ k, is_Some (m !! k) → fallback d !! k = None) →
          r = Ok d' →
          d' = with_store (store d') d ∧
          ∀ k, filled_in (store d) m (store d') k)).
  - intros d' _ [= <-]. split; [by rewrite with_store_id|].
    intros k. apply filled_in_start.
  - intros i x m r Hm IH d' Hfb. unfold fill_in_step.
    destruct r as [c|e]; [cbn|done].
    destruct (IH c) as [Hc Hspec]; [|done|].
    { intros k Hk. apply Hfb. destruct (decide (i = k)) as [->|Hne].
      - rewrite lookup_insert_eq. eauto.
      - by rewrite lookup_insert_ne. }
    pose proof (filled_in_pending _ _ _ _ Hm (Hspec i)) as Hi.
    destruct (store c !! i) as [old|] eqn:Hold.
    + assert (∀ s2 k, k ≠ i → s2 !! k = store c !! k →
                filled_in (store d) (<[i := x]> m) s2 k) as Hoth.
      { intros s2 k Hne Heq. eapply filled_in_other; [done|exact Heq|].
        apply Hspec. }
      destruct old as [| | | | |tr sub| |];
        try (intros [= <-]; split; [done|]; intros k;
             destruct (decide (k = i)) as [->|Hne]; [|by apply Hoth];
             unfold filled_in; rewrite <- Hi, Hold; done).
      destruct (fill_in_items x sub) as [sub'|e]; [cbn|done].
      intros [= <-]. split; [by rewrite Hc|]. cbn.
      intros k. destruct (decide (k = i)) as [->|Hne].
      * unfold filled_in. rewrite <- Hi. cbn.
        rewrite !lookup_insert_eq. split; [done|]. by eexists.
      * apply Hoth; [done|]. by rewrite lookup_insert_ne.
    + intros [= <-].
      assert (i ∉ authoritative c) as Hna.
      { rewrite Hc. cbn. intros Hin%Hbound%elem_of_dom.
        rewrite <- Hi in Hin. by destruct Hin. }
      rewrite setitem_fresh; [|done| |done].
      2:{ rewrite Hc. cbn. apply Hfb. rewrite lookup_insert_eq. eauto. }
      split; [by rewrite Hc at 2|]. cbn.
      intros k. destruct (decide (k = i)) as [->|Hne].
      * unfold filled_in. rewrite <- Hi. by rewrite !lookup_insert_eq.
      * eapply filled_in_other; [done| |apply Hspec].
        by rewrite lookup_insert_ne.
Qed.

End fill_in_facts.

(** ** The harvest *)

Lemma harvest_lookup d m k :
  harvest d = Ok m →
  m !! k = DogmaticDict.store d !! k ≫= harvest_value k.
Proof.
  unfold harvest. revert m.
  apply (map_fold_weak_ind (λ r st,
    ∀ m, r = Ok m → m !! k = st !! k ≫= harvest_value k)).
  - intros m [= <-]. by rewrite !lookup_empty.
  - intros i x st r Hst IH m. unfold harvest_step.
    destruct r as [acc|e]; [cbn|done]. specialize (IH acc eq_refl).
    assert (harvest_value i x = 
              if String.prefix "_" i then None
              else match x with
                   | VNpBool b => Some (VBool b)
                   | _ => match json_dumps x with
                          | JsonText => Some (undogmatize x)
                          | _ => None
                          end
                   end) as Hval.
    { unfold harvest_value, json_serializable.
      destruct (String.prefix "_" i); [done|].
      destruct x; try done; by destruct (json_dumps _). }
    destruct (decide (i = k)) as [->|Hne].
    + rewrite lookup_insert_eq. cbn. rewrite Hval.
      rewrite Hst in IH. cbn in IH.
      destruct (String.prefix "_" k); [by intros [= <-]|].
      destruct x; try (intros [= <-]; by rewrite lookup_insert_eq);
        destruct (json_dumps _); intros [= <-];
        by rewrite ?lookup_insert_eq.
    + rewrite (lookup_insert_ne st) by done. rewrite <- IH.
      destruct (String.prefix "_" i); [by intros [= <-]|].
      destruct x; try (intros [= <-]; by rewrite lookup_insert_ne);
        destruct (json_dumps _); intros [= <-];
        by rewrite ?lookup_insert_ne.
Qed.

(** The harvest raises exactly on a key, not starting with "_", that is
    bound to a value json refuses with ValueError. *)
Lemma harvest_outcome d :
  (∃ k v, DogmaticDict.store d !! k = Some v ∧
          String.prefix "_" k = false ∧ json_dumps v = JsonValueError) ∧
  harvest d = Err CircularReference
  ∨
  (∀ k v, DogmaticDict.store d !! k = Some v →
          String.prefix "_" k = false → json_dumps v ≠ JsonValueError) ∧
  ∃ m, harvest d = Ok m.
Proof.
  unfold harvest.
  apply (map_fold_weak_ind (λ r st,
    (∃ k v, st !! k = Some v ∧ String.prefix "_" k = false ∧
            json_dumps v = JsonValueError) ∧ r = Err CircularReference
    ∨
    (∀ k v, st !! k = Some v → String.prefix "_" k = false →
            json_dumps v ≠ JsonValueError) ∧ ∃ m, r = Ok m)).
  - right. split; [|by eexists]. intros k v Hk. by rewrite lookup_empty in Hk.
  - intros i x st r Hst [[(k & v & Hk & Hp & Hj) ->]|[Hall [m ->]]].
    + left. split; [|done]. exists k, v. split; [|done].
      rewrite lookup_insert_ne; [done|]. intros ->. congruence.
    + unfold harvest_step. cbn.
      destruct (String.prefix "_" i) eqn:Hp.
      { right. split; [|by eexists]. intros k v Hk Hpk.
        apply lookup_insert_Some in Hk as [[<- <-]|[_ Hk]]; [congruence|].
        by eapply Hall. }
      destruct (json_dumps x) eqn:Hj.
      * right. split; [|destruct x; by eexists].
        intros k v Hk Hpk.
        apply lookup_insert_Some in Hk as [[<- <-]|[_ Hk]]; [congruence|].
        by eapply Hall.
      * right. split; [|destruct x; by eexists].
        intros k v Hk Hpk.
        apply lookup_insert_Some in Hk as [[<- <-]|[_ Hk]]; [congruence|].
        by eapply Hall.
      * left. split; [|by destruct x].
        exists i, x. by rewrite lookup_insert_eq.
Qed.

(** ** Values: induction through nested dicts *)

Section value_induction.
Variable P : value → Prop.
Hypothesis HNone : P VNone.
Hypothesis HBool : ∀ b, P (VBool b).
Hypothesis HNpBool : ∀ b, P (VNpBool b).
Hypothesis HInt : ∀ n, P (VInt n).
Hypothesis HStr : ∀ s, P (VStr s).
Hypothesis HObj : ∀ id, P (VObj id).
Hypothesis HCircular : P VCircular.
Hypothesis HDict :
  ∀ tr items, Forall (λ kv, P kv.2) items → P (VDict tr items).

Fixpoint value_nested_ind (v : value) : P v :=
  match v with
  | VNone => HNone
  | VBool b => HBool b
  | VNpBool b => HNpBool b
  | VInt n => HInt n
  | VStr s => HStr s
  | VObj id => HObj id
  | VCircular => HCircular
  | VDict tr items =>
      HDict tr items
        ((fix go (l : list (string * value)) : Forall (λ kv, P kv.2) l :=
            match l with
            | [] => Forall_nil_2 _
            | kv :: l' => Forall_cons_2 _ kv l' (value_nested_ind kv.2) (go l')
            end) items)
  end.
End value_induction.

Lemma undogmatize_plain v : plain (undogmatize v) = true.
Proof.
  induction v as [| | | | | | |tr items IH] using value_nested_ind; try done.
  cbn. induction IH as [|[k x] l Hx _ IHl]; [done|].
  cbn in *. by rewrite Hx, IHl.
Qed.

Lemma undogmatize_json_dumps v : json_dumps (undogmatize v) = json_dumps v.
Proof.
  induction v as [| | | | | | |tr items IH] using value_nested_ind; try done.
  cbn. induction IH as [|[k x] l Hx _ IHl]; [done|].
  cbn in *. by rewrite Hx, IHl.
Qed.

Lemma undogmatize_json v :
  json_serializable (undogmatize v) = json_serializable v.
Proof. unfold json_serializable. by rewrite undogmatize_json_dumps. Qed.

(** The conversion leaves plain values as they are. *)
Lemma undogmatize_of_plain v : plain v = true → undogmatize v = v.
Proof.
  induction v as [| | | | | | |tr items IH] using value_nested_ind; try done.
  cbn. intros [Htr Hall]%andb_prop. destruct tr; [done|]. f_equal.
  clear Htr. induction IH as [|[k x] l Hx _ IHl]; [done|].
  cbn in *. apply andb_prop in Hall as [Hpx Hall].
  by rewrite Hx, IHl.
Qed.

Lemma undogmatize_not_dict v : is_dict v = false → undogmatize v = v.
Proof. by destruct v. Qed.

Lemma harvest_value_sound key v w :
  harvest_value key v = Some w →
  String.prefix "_" key = false ∧ json_serializable w = true ∧ plain w = true.
Proof.
  unfold harvest_value. destruct (String.prefix "_" key); [done|].
  intros Hw. split; [done|].
  assert (json_serializable v = true → w = undogmatize v →
          json_serializable w = true ∧ plain w = true) as Hgen.
  { intros Hj ->. by rewrite undogmatize_json, undogmatize_plain. }
  destruct v as [| | | | |tr items| |]; cbn in Hw; simplify_eq; try by split.
  destruct (_ : bool) eqn:Hj in Hw; [|done].
  injection Hw as <-. by apply Hgen.
Qed.

(** ** The stages of [ConfigScope.__call__] *)

Section scope_facts.
Variable self : ConfigScope.
Variables fixed preset fallback : option (gmap string value).

Lemma ConfigScope_run_inv d :
  ConfigScope_run self fixed preset fallback = Ok d →
  ∃ d0 view,
    bind_args (arg_spec_args self) (default ∅ preset) (default ∅ fallback)
      (dom (default ∅ preset) ∪ dom (default ∅ fallback))
      (DogmaticDict.dogmatize (default ∅ fixed)) ∅ = Ok (d0, view) ∧
    exec_body (func_globals self) (_body_code self) (DogmaticDict.set_fallback view d0)
    = Ok d.
Proof.
  unfold ConfigScope_run.
  destruct (bind_args _ _ _ _ _ _) as [[d0 view]|e]; [cbn|done].
  intros H. by exists d0, view.
Qed.

Lemma ConfigScope_call_inv s :
  ConfigScope_call self fixed preset fallback = Ok s →
  ∃ d d' m,
    ConfigScope_run self fixed preset fallback = Ok d ∧
    recursive_fill_in d (default ∅ preset) = Ok d' ∧
    harvest d' = Ok m ∧
    s = {| entries := m;
           added_values := DogmaticDict.revelation d;
           ignored_fallback_writes := DogmaticDict.ignored_fallback_writes d';
           modified := DogmaticDict.modified d';
           typechanges := DogmaticDict.typechanges d' |}.
Proof.
  unfold ConfigScope_call.
  destruct (ConfigScope_run _ _ _ _) as [d|e]; [cbn|done].
  destruct (recursive_fill_in _ _) as [d'|e] eqn:Hfill; [cbn|done].
  destruct (harvest d') as [m|e] eqn:Hh; [cbn|done].
  intros [= <-]. by exists d, d', m.
Qed.

(** The namespace the body leaves still holds [fixed], and its
    side-table serves declared parameters that [preset] lacks. *)
Lemma ConfigScope_run_seeded d :
  ConfigScope_run self fixed preset fallback = Ok d →
  seeded (default ∅ fixed) d ∧
  ∀ k, is_Some (default ∅ preset !! k) → DogmaticDict.fallback d !! k = None.
Proof.
  intros (d0 & view & Hb & Hex)%ConfigScope_run_inv.
  apply bind_args_inv in Hb as (HP & Hview & _ & _).
  split.
  - eapply exec_body_seeded; [exact Hex|]. apply set_fallback_seeded.
    apply HP; [intros; by apply setitem_seeded|apply dogmatize_seeded].
  - intros k [v Hk]. rewrite (exec_body_fallback _ _ _ _ Hex). cbn.
    destruct (view !! k) as [w|] eqn:Hw; [|done].
    destruct (Hview k w Hw) as [Hv|[Hv _]]; [done|congruence].
Qed.

(** The fill-in step changes the store of the namespace and none of its
    records. *)
Lemma ConfigScope_fill_in d d' :
  ConfigScope_run self fixed preset fallback = Ok d →
  recursive_fill_in d (default ∅ preset) = Ok d' →
  d' = DogmaticDict.with_store (DogmaticDict.store d') d ∧
  ∀ k, filled_in (DogmaticDict.store d) (default ∅ preset)
         (DogmaticDict.store d') k.
Proof.
  intros [Hseed Hfb]%ConfigScope_run_seeded Hfill.
  eapply recursive_fill_in_spec; [|exact Hfb|exact Hfill].
  by eapply seeded_bound.
Qed.

End scope_facts.

(** ** Unresolved parameters *)

(** C5: when some declared parameter is in neither [preset] nor
    [fallback], the evaluation raises the error that names the first such
    parameter (in declaration order) and carries the union of the key
    names of [preset] and [fallback]; it does so whatever the body is, the
    body not having been run. *)
Theorem unresolved_parameter_raises
    (args : list string) (fixed preset fallback : option (gmap string value)) :
  (∃ arg, arg ∈ args ∧ default ∅ preset !! arg = None ∧
          default ∅ fallback !! arg = None) →
  ∃ pre arg post,
    args = (pre ++ arg :: post)%list ∧
    (∀ a, a ∈ pre → a ∈ dom (default ∅ preset) ∪ dom (default ∅ fallback)) ∧
    default ∅ preset !! arg = None ∧ default ∅ fallback !! arg = None ∧
    ∀ code globals,
      ConfigScope_call
        {| arg_spec_args := args; _body_code := code; func_globals := globals |}
        fixed preset fallback
      = Err (UnresolvedParameter arg
               (dom (default ∅ preset) ∪ dom (default ∅ fallback))).
Proof.
  intros (arg & Hin & Hp & Hf).
  destruct (bind_args_unresolved (default ∅ preset) (default ∅ fallback)
              (dom (default ∅ preset) ∪ dom (default ∅ fallback)) args
              (DogmaticDict.dogmatize (default ∅ fixed)) ∅)
    as (pre & a & post & Hargs & Hpre & Hna & Herr); [|done|].
  { exists arg. split; [done|]. rewrite elem_of_union, !elem_of_dom, Hp, Hf.
    intros [[? ?]|[? ?]]; done. }
  exists pre, a, post. rewrite elem_of_union, !elem_of_dom in Hna.
  split_and!; [done|done|..].
  - destruct (default ∅ preset !! a) eqn:E; [|done].
    exfalso. apply Hna. left. eauto.
  - destruct (default ∅ fallback !! a) eqn:E; [|done].
    exfalso. apply Hna. right. eauto.
  - intros code globals. unfold ConfigScope_call, ConfigScope_run. cbn.
    by rewrite Herr.
Qed.

Lemma unresolved_parameter_raises_witness :
  (∃ arg, arg ∈ ["lr"; "seed"] ∧
          default ∅ (Some ({["lr" := VInt 1]} : gmap string value)) !! arg = None ∧
          default ∅ (None : option (gmap string value)) !! arg = None) ∧
  ∃ pre arg post,
    ["lr"; "seed"] = (pre ++ arg :: post)%list ∧
    (∀ a, a ∈ pre →
          a ∈ dom (default ∅ (Some ({["lr" := VInt 1]} : gmap string value)))
              ∪ dom (default ∅ (None : option (gmap string value)))) ∧
    default ∅ (Some ({["lr" := VInt 1]} : gmap string value)) !! arg = None ∧
    default ∅ (None : option (gmap string value)) !! arg = None ∧
    ∀ code globals,
      ConfigScope_call
        {| arg_spec_args := ["lr"; "seed"]; _body_code := code;
           func_globals := globals |}
        None (Some {["lr" := VInt 1]}) None
      = Err (UnresolvedParameter arg
               (dom (default ∅ (Some ({["lr" := VInt 1]} : gmap string value)))
                ∪ dom (default ∅ (None : option (gmap string value))))).
Proof.
  assert (∃ arg, arg ∈ ["lr"; "seed"] ∧
          default ∅ (Some ({["lr" := VInt 1]} : gmap string value)) !! arg = None ∧
          default ∅ (None : option (gmap string value)) !! arg = None) as H.
  { exists "seed". split; [|split; reflexivity].
    apply elem_of_cons. right. apply elem_of_cons. by left. }
  split; [exact H|].
  exact (unresolved_parameter_raises ["lr"; "seed"] None
           (Some {["lr" := VInt 1]}) None H).
Defined.

(** ** The harvest *)

(** C7, as amended: let the fill-in step of a ConfigScope evaluation
    leave the namespace [d'].  If none of its keys that does not start
    with "_" is bound to a value json refuses with ValueError, the
    evaluation returns, whatever else the values are; in its result no
    key starts with "_" and every value is JSON-encodable and plain; a
    key of [d'] that does not start with "_" is returned as a plain
    boolean if it is bound to a numpy boolean, in plain form if json
    encodes its value, and is left out, without an error, if json refuses
    the value with TypeError. *)
Theorem harvest_filters_and_converts
    (self : ConfigScope) (fixed preset fallback : option (gmap string value))
    (d d' : DogmaticDict.t) :
  ConfigScope_run self fixed preset fallback = Ok d →
  recursive_fill_in d (default ∅ preset) = Ok d' →
  (∀ k v, DogmaticDict.store d' !! k = Some v → String.prefix "_" k = false →
          json_dumps v ≠ JsonValueError) →
  ∃ s,
    ConfigScope_call self fixed preset fallback = Ok s ∧
    (∀ k v, entries s !! k = Some v →
            String.prefix "_" k = false ∧ json_serializable v = true ∧
            plain v = true) ∧
    (∀ k, String.prefix "_" k = true → entries s !! k = None) ∧
    ∀ k v, DogmaticDict.store d' !! k = Some v → String.prefix "_" k = false →
      match v with
      | VNpBool b => entries s !! k = Some (VBool b)
      | _ =>
          match json_dumps v with
          | JsonText => entries s !! k = Some (undogmatize v)
          | _ => entries s !! k = None
          end
      end.
Proof.
  intros Hrun Hfill Hfree.
  destruct (harvest_outcome d') as [[(k & v & Hk & Hp & Hj) _]|[_ [m Hh]]].
  { by destruct (Hfree k v Hk Hp). }
  eexists. split.
  { unfold ConfigScope_call. rewrite Hrun. cbn. rewrite Hfill. cbn.
    rewrite Hh. cbn. reflexivity. }
  cbn. split_and!.
  - intros k v. rewrite (harvest_lookup _ _ _ Hh).
    destruct (DogmaticDict.store d' !! k) as [x|]; [cbn|done].
    apply harvest_value_sound.
  - intros k Hk. rewrite (harvest_lookup _ _ _ Hh).
    destruct (DogmaticDict.store d' !! k) as [x|]; [cbn|done].
    unfold harvest_value. by rewrite Hk.
  - intros k v Hv Hk. rewrite (harvest_lookup _ _ _ Hh), Hv. cbn.
    unfold harvest_value, json_serializable. rewrite Hk.
    destruct v as [| | | | |tr items| |]; try done.
    by destruct (json_dumps (VDict tr items)).
Qed.

Lemma harvest_filters_and_converts_witness :
  ∃ d d' s,
    ConfigScope_run scope_odd_values None None None = Ok d ∧
    recursive_fill_in d (default ∅ None) = Ok d' ∧
    DogmaticDict.store d' !! "obj" = Some (VObj 0) ∧
    ConfigScope_call scope_odd_values None None None = Ok s ∧
    entries s = {["flag" := VBool true]}.
Proof.
  assert (∃ d, ConfigScope_run scope_odd_values None None None = Ok d)
    as [d Hd] by (eexists; vm_compute; reflexivity).
  assert (∃ d', recursive_fill_in d (default ∅ None) = Ok d') as [d' Hd'].
  { vm_compute in Hd. injection Hd as <-. eexists. vm_compute. reflexivity. }
  assert (DogmaticDict.store d'
          = {["flag" := VNpBool true; "obj" := VObj 0; "_tmp" := VInt 3]})
    as Hstore.
  { vm_compute in Hd. injection Hd as <-. vm_compute in Hd'.
    injection Hd' as <-. vm_compute. reflexivity. }
  destruct (harvest_filters_and_converts scope_odd_values None None None
              d d' Hd Hd') as (s & Hs & _ & _ & _).
  - rewrite Hstore. intros k v Hk Hp Hj.
    apply lookup_insert_Some in Hk as [[<- <-]|[_ Hk]]; [discriminate Hj|].
    apply lookup_insert_Some in Hk as [[<- <-]|[_ Hk]]; [discriminate Hj|].
    apply lookup_singleton_Some in Hk as [<- <-]. discriminate Hj.
  - exists d, d', s. split; [exact Hd|]. split; [exact Hd'|].
    split; [by rewrite Hstore|]. split; [exact Hs|].
    vm_compute in Hs. injection Hs as <-. vm_compute. reflexivity.
Defined.

(** C7, the claim as stated fails: the value of "c" cannot be
    JSON-encoded (it is a list that holds itself), the key does not
    start with "_", and the evaluation raises the ValueError of
    json.dumps instead of leaving the key out. *)
Lemma harvest_raises_on_circular_value :
  json_serializable VCircular = false ∧
  String.prefix "_" "c" = false ∧
  ConfigScope_call empty_scope None (Some {["c" := VCircular]}) None
  = Err CircularReference.
Proof. split; [reflexivity|]. split; [reflexivity|]. vm_compute. reflexivity. Qed.

(** ** Authoritative values *)




(** ** Added values *)

Lemma setitem_dom key v d :
  DogmaticDict.authoritative d ⊆ dom (DogmaticDict.store d) →
  dom (DogmaticDict.store (DogmaticDict.setitem key v d))
  = {[key]} ∪ dom (DogmaticDict.store d).
Proof.
  intros Hbound. unfold DogmaticDict.setitem. case_decide as Hk; cbn.
  - apply Hbound in Hk. apply set_eq. intros x.
    rewrite elem_of_union, elem_of_singleton. split; [tauto|].
    intros [->|?]; done.
  - apply dom_insert_L.
Qed.

(** The keys the body leaves bound are those it found bound and those it
    assigns. *)
Lemma exec_body_dom globals code d d' :
  exec_body globals code d = Ok d' →
  DogmaticDict.authoritative d ⊆ dom (DogmaticDict.store d) →
  dom (DogmaticDict.store d')
  = dom (DogmaticDict.store d) ∪ list_to_set (map target_of code).
Proof.
  revert d. induction code as [|st code IH]; intros d Hex Hbound.
  - injection Hex as <-. cbn. by rewrite (right_id_L ∅ (∪)).
  - apply exec_body_cons in Hex as (d1 & Hs & Hrest).
    apply exec_stmt_inv in Hs as (v & _ & ->).
    rewrite (IH _ Hrest).
    + rewrite setitem_dom by done. cbn. apply set_eq. intros x.
      rewrite !elem_of_union. tauto.
    + rewrite setitem_authoritative. etrans; [exact Hbound|].
      apply setitem_dom_mono.
Qed.

(** The keys bound when the body starts: those of [fixed], and the
    declared parameters that [preset] has. *)
Lemma bind_args_dom preset fallback available args fixed view d0 view0 :
  bind_args args preset fallback available (DogmaticDict.dogmatize fixed) view
  = Ok (d0, view0) →
  dom (DogmaticDict.store d0)
  = dom fixed ∪ (list_to_set args ∩ dom preset).
Proof.
  intros Hb. apply set_eq. intros k.
  rewrite elem_of_union, elem_of_intersection, elem_of_list_to_set,
    !elem_of_dom.
  rewrite (bind_args_store _ _ _ _ _ _ _ _ k Hb). cbn.
  destruct (preset !! k) as [pv|] eqn:Hp.
  - destruct (decide (k ∈ args ∧ k ∉ dom fixed)) as [[Hin Hnf]|Hnot].
    + split; [|by eexists]. intros _. right. split; [done|by eexists].
    + split; [by left|]. intros [?|[Hin _]]; [done|].
      destruct (decide (k ∈ dom fixed)) as [Hf|Hf]; [|tauto].
      by apply elem_of_dom.
  - split; [by left|]. intros [?|[_ [? ?]]]; done.
Qed.

(** C3, as amended: [added_values] is exactly the set of keys that
    [fixed] lacks and that the executed body assigns or that are declared
    parameters bound from [preset] before the body runs.  It is read from
    the namespace the body leaves, before the fill-in step: a key of
    [preset] that this namespace does not bind is not in [added_values],
    though the fill-in step brings it into the result; and the three
    other attributes are those of that namespace too, the fill-in step
    changing none of them. *)
Theorem added_values_assigned_or_bound
    (self : ConfigScope) (fixed preset fallback : option (gmap string value))
    (s : ConfigSummary) :
  ConfigScope_call self fixed preset fallback = Ok s →
  added_values s
  = (list_to_set (map target_of (_body_code self))
     ∪ (list_to_set (arg_spec_args self) ∩ dom (default ∅ preset)))
    ∖ dom (default ∅ fixed) ∧
  ∃ d,
    ConfigScope_run self fixed preset fallback = Ok d ∧
    added_values s = dom (DogmaticDict.store d) ∖ dom (default ∅ fixed) ∧
    modified s = DogmaticDict.modified d ∧
    typechanges s = DogmaticDict.typechanges d ∧
    ignored_fallback_writes s = DogmaticDict.ignored_fallback_writes d ∧
    ∀ k, k ∈ dom (default ∅ preset) → k ∉ dom (DogmaticDict.store d) →
         (k ∉ added_values s) ∧
         entries s !! k = default ∅ preset !! k ≫= harvest_value k.
Proof.
  intros (d & d' & m & Hrun & Hfill & Hh & ->)%ConfigScope_call_inv. cbn.
  destruct (ConfigScope_run_seeded _ _ _ _ _ Hrun) as [[Hauth Hseed] _].
  destruct (ConfigScope_fill_in _ _ _ _ _ _ Hrun Hfill) as [Hd' Hfilled].
  assert (DogmaticDict.revelation d
          = dom (DogmaticDict.store d) ∖ dom (default ∅ fixed)) as Hrev.
  { unfold DogmaticDict.revelation. by rewrite Hauth. }
  split.
  - rewrite Hrev.
    apply ConfigScope_run_inv in Hrun as (d0 & view & Hb & Hex).
    rewrite (exec_body_dom _ _ _ _ Hex). cbn.
    + rewrite (bind_args_dom _ _ _ _ _ _ _ _ Hb). apply set_eq. intros x.
      rewrite !elem_of_difference, !elem_of_union. tauto.
    + pose proof (bind_args_inv _ _ _ _ _ _ _ _ Hb) as (HP & _).
      cbn. eapply (seeded_bound (default ∅ fixed)).
      apply HP; [intros; by apply setitem_seeded|apply dogmatize_seeded].
  - exists d. split_and!; [done|done|by rewrite Hd'..|].
    intros k Hp Hs. split.
    + rewrite Hrev. rewrite elem_of_difference. by intros [? _].
    + rewrite (harvest_lookup _ _ _ Hh). specialize (Hfilled k).
      unfold filled_in in Hfilled.
      apply not_elem_of_dom in Hs. rewrite Hs in Hfilled. by rewrite Hfilled.
Qed.

Lemma added_values_assigned_or_bound_witness :
  ∃ s,
    ConfigScope_call scope_b None (Some {["a" := VInt 1; "y" := VInt 5]}) None
    = Ok s ∧
    added_values s
    = (list_to_set (map target_of (_body_code scope_b))
       ∪ (list_to_set (arg_spec_args scope_b)
          ∩ dom (default ∅ (Some ({["a" := VInt 1; "y" := VInt 5]}
                                    : gmap string value)))))
      ∖ dom (default ∅ (None : option (gmap string value))) ∧
    added_values s = {["a"; "b"]} ∧
    entries s !! "y" = Some (VInt 5).
Proof.
  assert (∃ s, ConfigScope_call scope_b None
                 (Some {["a" := VInt 1; "y" := VInt 5]}) None = Ok s)
    as [s Hs] by (eexists; vm_compute; reflexivity).
  exists s. split; [exact Hs|]. split.
  - exact (proj1 (added_values_assigned_or_bound scope_b None
                    (Some {["a" := VInt 1; "y" := VInt 5]}) None s Hs)).
  - vm_compute in Hs. injection Hs as <-. split; vm_compute; reflexivity.
Defined.

(** C3, the claim as stated fails: the body is empty, so it introduces no
    key, and [added_values] holds "a", the declared parameter that was
    bound from [preset] before the body ran. *)
Lemma added_values_of_empty_body :
  let self :=
    {| arg_spec_args := ["a"]; _body_code := []; func_globals := ∅ |} in
  ∃ s, ConfigScope_call self None (Some {["a" := VInt 1]}) None = Ok s ∧
       _body_code self = [] ∧
       added_values s = {["a"]} ∧
       added_values s ≠ ∅.
Proof.
  cbv zeta. eexists. split; [vm_compute; reflexivity|].
  split; [reflexivity|]. split; [vm_compute; reflexivity|].
  intros H. apply (f_equal (λ X : gset string, bool_decide ("a" ∈ X))) in H.
  vm_compute in H. discriminate H.
Qed.

(** ** Parameters served by the fallback *)

Section fallback_facts.
Import DogmaticDict.
Variable globals : gmap string value.






End fallback_facts.





(** ** The chain *)

Lemma call_entry_plain config fixed preset fallback s :
  call_entry config fixed preset fallback = Ok s → plain_map (entries s).
Proof.
  destruct config as [c|c]; cbn.
  - intros (d & d' & m & _ & _ & Hh & ->)%ConfigScope_call_inv k v. cbn.
    rewrite (harvest_lookup _ _ _ Hh).
    destruct (DogmaticDict.store d' !! k) as [x|]; [cbn|done].
    by intros (_ & _ & ?)%harvest_value_sound.
  - intros [= <-] k v. cbn. unfold DogmaticDict.undogmatize_dict.
    rewrite lookup_fmap. destruct (_ !! k) as [x|]; [|done].
    intros [= <-]. apply undogmatize_plain.
Qed.

Lemma undogmatize_plain_map (m : gmap string value) :
  plain_map m → undogmatize <$> m = m.
Proof.
  intros Hm. apply map_eq. intros k. rewrite lookup_fmap.
  destruct (m !! k) as [v|] eqn:Hv; [|done]. cbn.
  by rewrite undogmatize_of_plain by (by eapply Hm).
Qed.


(** C8: with no entry, the chain returns the starting preset (empty if
    none) updated with [fixed], in plain form, and no summary. *)
Theorem empty_chain_returns_preset_with_fixed
    (fixed preset fallback : option (gmap string value)) :
  let final := undogmatize <$> (default ∅ fixed ∪ default ∅ preset) in
  chain_evaluate_config_scopes [] fixed preset fallback = Ok (final, []) ∧
  (∀ k v, default ∅ fixed !! k = Some v → final !! k = Some (undogmatize v)) ∧
  (∀ k, default ∅ fixed !! k = None →
        final !! k = undogmatize <$> default ∅ preset !! k) ∧
  (plain_map (default ∅ fixed) → plain_map (default ∅ preset) →
   final = default ∅ fixed ∪ default ∅ preset).
Proof.
  cbn. split_and!.
  - done.
  - intros k v Hk. rewrite lookup_fmap.
    by rewrite (lookup_union_Some_l _ _ _ _ Hk).
  - intros k Hk. rewrite lookup_fmap. by rewrite lookup_union_r.
  - intros HF HP. apply undogmatize_plain_map.
    intros k v [Hv|[_ Hv]]%lookup_union_Some_raw; eauto.
Qed.




(** ** Construction of a ConfigDict *)

Lemma PYTHON_IDENTIFIER_not_private k :
  PYTHON_IDENTIFIER k = true → String.prefix "_" k = false.
Proof.
  destruct k as [|c k]; [done|]. cbn.
  intros [Hc _]%andb_prop.
  destruct (Ascii.eqb_spec "_"%char c) as [<-|Hne]; [done|].
  cbn. by destruct c as [[] [] [] [] [] [] [] []].
Qed.

Lemma ConfigDict_init_step_ok conf item :
  valid_item item = true →
  ∃ k, item.1 = VStr k ∧
       ConfigDict_init_step conf item = Ok (<[k := stored_value item.2]> conf).
Proof.
  destruct item as [key v]. unfold valid_item. cbn.
  intros [Hk Hv]%andb_prop. destruct key as [| | | |k| | |]; try done.
  exists k. split; [done|]. cbn in Hk. rewrite Hk.
  destruct v as [| | | | |tr items| |]; try done.
  unfold valid_value, json_serializable in Hv.
  by destruct (json_dumps (VDict tr items)).
Qed.

Lemma ConfigDict_init_step_bad_key conf key v :
  valid_key key = false →
  ConfigDict_init_step conf (key, v) = Err (InvalidKey key).
Proof.
  intros Hk. destruct key as [| | | |k| | |]; try done. cbn in *. by rewrite Hk.
Qed.

Lemma ConfigDict_init_step_bad_value conf k v :
  valid_key (VStr k) = true → valid_value v = false →
  ConfigDict_init_step conf (VStr k, v)
  = Err (match json_dumps v with
         | JsonValueError => CircularReference
         | _ => InvalidValue k
         end).
Proof.
  cbn. intros -> Hv. destruct v as [| | | | |tr items| |]; try done.
  unfold valid_value, json_serializable in Hv.
  by destruct (json_dumps (VDict tr items)).
Qed.

Lemma ConfigDict_init_loop_app conf pre post :
  forallb valid_item pre = true →
  ∃ conf', ConfigDict_init_loop conf (pre ++ post)
           = ConfigDict_init_loop conf' post ∧
           ∀ k w, conf' !! k = Some w →
                  conf !! k = Some w ∨
                  ∃ v, (VStr k, v) ∈ pre ∧ w = stored_value v.
Proof.
  revert conf. induction pre as [|item pre IH]; intros conf; cbn.
  - intros _. exists conf. split; [done|]. by left.
  - intros [Hitem Hpre]%andb_prop.
    destruct (ConfigDict_init_step_ok conf item Hitem) as (k & Hkey & ->).
    cbn. destruct (IH (<[k := stored_value item.2]> conf) Hpre)
      as (conf' & -> & Hconf').
    exists conf'. split; [done|]. intros k' w Hw.
    destruct (Hconf' k' w Hw) as [Hin|(v & Hin & ->)].
    + destruct (decide (k = k')) as [->|Hne].
      * rewrite lookup_insert_eq in Hin. injection Hin as <-.
        right. exists item.2. split; [|done].
        apply elem_of_cons. left. destruct item; cbn in *. by subst.
      * rewrite lookup_insert_ne in Hin by done. by left.
    + right. exists v. split; [|done]. apply elem_of_cons. by right.
Qed.

Lemma ConfigDict_init_loop_ok conf d :
  is_ok (ConfigDict_init_loop conf d) = forallb valid_item d.
Proof.
  revert conf. induction d as [|item d IH]; intros conf; [done|].
  cbn [ConfigDict_init_loop forallb].
  destruct (valid_item item) eqn:Hitem.
  - destruct (ConfigDict_init_step_ok conf item Hitem) as (k & _ & ->).
    apply IH.
  - destruct item as [key v]. unfold valid_item in Hitem. cbn in Hitem.
    destruct (valid_key key) eqn:Hk.
    + destruct key as [| | | |k| | |]; try done.
      by rewrite (ConfigDict_init_step_bad_value conf k v).
    + by rewrite ConfigDict_init_step_bad_key.
Qed.

(** C6: the construction of a ConfigDict succeeds exactly when every key
    is an identifier-shaped string, which excludes a leading "_", and
    every value is a numpy boolean or JSON-encodable; otherwise it raises
    the error of the first item that fails: the key error naming the key
    if the key fails, and else the value error (which names the key of
    the value; for a value json refuses with its own ValueError, that
    error).  On success a key holds the plain boolean of a numpy boolean
    and the plain form of any other value. *)
Theorem ConfigDict_init_validates (d : list (value * value)) :
  (is_ok (ConfigDict_init d) = forallb valid_item d) ∧
  (∀ k, String.prefix "_" k = true → valid_key (VStr k) = false) ∧
  (∀ pre key v post,
     d = (pre ++ (key, v) :: post)%list → forallb valid_item pre = true →
     (valid_key key = false → ConfigDict_init d = Err (InvalidKey key)) ∧
     (∀ k, key = VStr k → valid_key key = true → valid_value v = false →
           ConfigDict_init d
           = Err (match json_dumps v with
                  | JsonValueError => CircularReference
                  | _ => InvalidValue k
                  end))) ∧
  (∀ c k w, ConfigDict_init d = Ok c → _conf c !! k = Some w →
            ∃ v, (VStr k, v) ∈ d ∧ w = stored_value v).
Proof.
  split_and!.
  - rewrite <- (ConfigDict_init_loop_ok ∅ d). unfold ConfigDict_init.
    by destruct (ConfigDict_init_loop ∅ d).
  - intros k Hk. cbn. destruct (PYTHON_IDENTIFIER k) eqn:Hid; [|done].
    apply PYTHON_IDENTIFIER_not_private in Hid. congruence.
  - intros pre key v post -> Hpre. unfold ConfigDict_init.
    destruct (ConfigDict_init_loop_app ∅ pre ((key, v) :: post) Hpre)
      as (conf' & -> & _).
    split.
    + intros Hk. cbn [ConfigDict_init_loop].
      by rewrite ConfigDict_init_step_bad_key.
    + intros k -> Hk Hv. cbn [ConfigDict_init_loop].
      by rewrite ConfigDict_init_step_bad_value.
  - intros c k w. unfold ConfigDict_init.
    pose proof (ConfigDict_init_loop_ok ∅ d) as Hall.
    destruct (ConfigDict_init_loop ∅ d) as [conf|e] eqn:Hloop; [cbn|done].
    intros [= <-]. cbn. intros Hw. symmetry in Hall. cbn in Hall.
    destruct (ConfigDict_init_loop_app ∅ d [] Hall) as (conf' & Heq & Hconf').
    rewrite app_nil_r, Hloop in Heq. cbn in Heq. injection Heq as <-.
    destruct (Hconf' k w Hw) as [Hin|Hin]; [|done].
    by rewrite lookup_empty in Hin.
Qed.

(** ** Dedenting the body text *)

Lemma first_mismatch_shift line indent i :
  first_mismatch line indent (S i) = S <$> first_mismatch line indent i.
Proof.
  revert indent i. induction line as [|a line IH]; intros [|b indent] i;
    try done.
  cbn. destruct (Ascii.eqb a b); [apply IH|done].
Qed.

Lemma dedent_line_empty indent : dedent_line EmptyString indent = EmptyString.
Proof. unfold dedent_line. cbn. by destruct (String.length indent). Qed.

Lemma dedent_line_no_indent line : dedent_line line EmptyString = line.
Proof. unfold dedent_line. by destruct line. Qed.

Lemma dedent_line_same a line indent :
  dedent_line (String a line) (String a indent) = dedent_line line indent.
Proof.
  unfold dedent_line. cbn. rewrite Ascii.eqb_refl, first_mismatch_shift.
  by destruct (first_mismatch line indent 0).
Qed.

Lemma dedent_line_differ a b line indent :
  a ≠ b → dedent_line (String a line) (String b indent) = String a line.
Proof.
  intros Hne. unfold dedent_line. cbn.
  by destruct (Ascii.eqb_spec a b).
Qed.

(** [dedent_line] takes off the longest prefix the line shares with the
    indentation. *)
Lemma dedent_line_common_prefix line indent :
  line = (common_prefix line indent ++ dedent_line line indent)%string.
Proof.
  revert indent. induction line as [|a line IH]; intros [|b indent];
    try done.
  cbn [common_prefix]. destruct (Ascii.eqb_spec a b) as [<-|Hne].
  - rewrite dedent_line_same. by rewrite (IH indent) at 1.
  - by rewrite dedent_line_differ.
Qed.

Lemma dedent_line_indented indent rest :
  dedent_line (indent ++ rest)%string indent = rest.
Proof.
  induction indent as [|a indent IH].
  - apply dedent_line_no_indent.
  - change (dedent_line (String a (indent ++ rest)%string) (String a indent)
            = rest).
    by rewrite dedent_line_same.
Qed.

Lemma find_indent_spec lines :
  (∃ line, first_code_line lines line ∧
           find_indent lines = leading_whitespace line) ∨
  (Forall (λ l, is_empty_or_comment l = true) lines ∧
   find_indent lines = EmptyString).
Proof.
  induction lines as [|l lines IH]; cbn.
  - right. by split.
  - destruct (is_empty_or_comment l) eqn:Hl.
    + destruct IH as [(line & (pre & post & -> & Hpre & Hline) & Hind)|[Hall Hind]].
      * left. exists line. split; [|done].
        exists (l :: pre), post. split_and!; [done| |done].
        by constructor.
      * right. split; [by constructor|done].
    + left. exists l. split; [|done]. exists [], lines. by split_and!.
Qed.

Lemma split_lines_nonempty body : split_lines body ≠ [].
Proof.
  destruct body as [|c body]; [done|]. cbn.
  destruct (Ascii.eqb c (ascii_of_nat 10)); [done|].
  by destruct (split_lines body).
Qed.

(** The lines of a body, joined again, are the body. *)
Lemma split_lines_concat body : String.concat newline (split_lines body) = body.
Proof.
  induction body as [|c body IH]; [done|]. cbn [split_lines].
  pose proof (split_lines_nonempty body) as Hne.
  destruct (Ascii.eqb_spec c (ascii_of_nat 10)) as [->|Hc].
  - destruct (split_lines body) as [|l ls] eqn:Hs; [done|].
    change (String.concat newline (EmptyString :: l :: ls))
      with (newline ++ String.concat newline (l :: ls))%string.
    by rewrite IH.
  - destruct (split_lines body) as [|l ls] eqn:Hs; [done|].
    rewrite <- IH. cbn. by destruct ls.
Qed.

(** C9, as amended: the indentation is the leading whitespace of the
    first line that is neither blank nor a comment (empty if there is
    none); the dedented body is the lines of the body, each without the
    longest prefix it shares with that indentation, joined again: a line
    that starts with the indentation loses exactly the indentation, any
    other line loses only the part of it on which it agrees with the
    indentation. *)
Theorem dedent_removes_shared_indentation (body : string) :
  let lines := split_lines body in
  let indent := find_indent lines in
  String.concat newline lines = body ∧
  ((∃ line, first_code_line lines line ∧ indent = leading_whitespace line) ∨
   (Forall (λ l, is_empty_or_comment l = true) lines ∧ indent = EmptyString)) ∧
  dedent_function_body body
  = String.concat newline (map (λ line, dedent_line line indent) lines) ∧
  ∀ line,
    line = (common_prefix line indent ++ dedent_line line indent)%string ∧
    (∀ rest, line = (indent ++ rest)%string → dedent_line line indent = rest).
Proof.
  cbv zeta. split_and!.
  - apply split_lines_concat.
  - apply find_indent_spec.
  - done.
  - intros line. split; [apply dedent_line_common_prefix|].
    intros rest ->. apply dedent_line_indented.
Qed.

(** C9, the claim as stated fails: in a body whose code is indented by
    four spaces, a comment line indented by two loses two characters, not
    the indentation. *)
Lemma dedent_of_less_indented_line :
  let body := ("    a = 1" ++ newline ++ "  # c")%string in
  split_lines body = ["    a = 1"; "  # c"] ∧
  find_indent (split_lines body) = "    " ∧
  dedent_function_body body = ("a = 1" ++ newline ++ "# c")%string ∧
  dedent_line "  # c" "    " = "# c" ∧
  ¬ (∃ rest, "  # c" = ("    " ++ rest)%string).
Proof.
  cbv zeta. split_and!; try reflexivity.
  intros [rest H]. discriminate H.
Qed.

(** ** The scenarios of the specification *)

(** Body [a = 1; b = a + 1], no layered inputs. *)
Example scenario_plain_body :
  ∃ s, ConfigScope_call
         {| arg_spec_args := [];
            _body_code :=
              [Assign "a" (EConst (VInt 1));
               Assign "b" (EBinOp py_add (EName "a") (EConst (VInt 1)))];
            func_globals := ∅ |} None None None = Ok s ∧
       entries s = {["a" := VInt 1; "b" := VInt 2]} ∧
       added_values s = {["a"; "b"]} ∧ modified s = ∅.
Proof. eexists. split; [vm_compute; reflexivity|]. by vm_compute. Qed.

(** [fixed = {x: 10}], body [x = 5]. *)
Example scenario_fixed_wins :
  ∃ s, ConfigScope_call scope_x (Some {["x" := VInt 10]}) None None = Ok s ∧
       entries s = {["x" := VInt 10]} ∧ modified s = {["x"]}.
Proof. eexists. split; [vm_compute; reflexivity|]. by vm_compute. Qed.

(** [preset = {y: {p: 1, q: 2}}], body [y = {"p": 100}]: the nested dict
    is completed from the preset. *)
Example scenario_nested_fill_in :
  ∃ s, ConfigScope_call
         {| arg_spec_args := [];
            _body_code :=
              [Assign "y" (EConst (VDict false [("p", VInt 100)]))];
            func_globals := ∅ |}
         None (Some {["y" := VDict false [("p", VInt 1); ("q", VInt 2)]]})
         None = Ok s ∧
       entries s = {["y" := VDict false [("p", VInt 100); ("q", VInt 2)]]}.
Proof. eexists. split; [vm_compute; reflexivity|]. by vm_compute. Qed.

(** [fallback = {run_id: "abc"}], the body does not touch [run_id]. *)
Example scenario_fallback_untouched :
  ∃ s, ConfigScope_call
         {| arg_spec_args := ["run_id"]; _body_code := [];
            func_globals := ∅ |}
         None None (Some {["run_id" := VStr "abc"]}) = Ok s ∧
       entries s = ∅ ∧ ignored_fallback_writes s = [].
Proof. eexists. split; [vm_compute; reflexivity|]. by vm_compute. Qed.

(** The same with the body [run_id = run_id + "_x"]. *)
Example scenario_fallback_written :
  ∃ s, ConfigScope_call scope_run_id None None
         (Some {["run_id" := VStr "abc"]}) = Ok s ∧
       entries s = {["run_id" := VStr "abc_x"]} ∧
       ignored_fallback_writes s = ["run_id"].
Proof. eexists. split; [vm_compute; reflexivity|]. by vm_compute. Qed.

(** The chain of the literal [{a: 1}] and of [def cfg(a): b = a * 2]. *)
Example scenario_chain :
  ∃ summaries,
    chain_evaluate_config_scopes
      [Literal {| _conf := {["a" := VInt 1]} |}; Scope scope_b]
      None None None
    = Ok ({["a" := VInt 1; "b" := VInt 2]}, summaries).
Proof. eexists. vm_compute. reflexivity. Qed.

(** [ConfigDict({"_private": 1})] *)
Example scenario_private_key :
  ConfigDict_init [(VStr "_private", VInt 1)]
  = Err (InvalidKey (VStr "_private")).
Proof. reflexivity. Qed.

(** A value that is not encodable, behind a valid one. *)
Example scenario_invalid_value :
  ConfigDict_init [(VStr "a", VNpBool true); (VStr "b", VObj 0)]
  = Err (InvalidValue "b").
Proof. reflexivity. Qed.

(** * Further properties *)

(** ** Blank lines, comments and indentation *)

Lemma rstrip_empty_lstrip s : rstrip s = EmptyString → lstrip s = EmptyString.
Proof.
  induction s as [|a s IH]; [done|]. cbn.
  destruct (rstrip s) as [|b r]; [|done].
  destruct (py_isspace a); [|done]. intros _. by apply IH.
Qed.

Lemma strip_head s : str_head (strip s) = str_head (lstrip s).
Proof.
  unfold strip. induction s as [|a s IH]; [done|]. cbn.
  destruct (rstrip s) as [|b r] eqn:Hr.
  - destruct (py_isspace a) eqn:Ha; cbn; rewrite ?Ha; [|done].
    by rewrite (rstrip_empty_lstrip s Hr).
  - cbn [lstrip]. destruct (py_isspace a); [exact IH|done].
Qed.

Lemma prefix_hash c r : String.prefix "#" (String c r) = Ascii.eqb c "#"%char.
Proof.
  change (String.prefix "#" (String c r))
    with (if ascii_dec "#" c then String.prefix "" r else false).
  destruct (ascii_dec "#" c) as [<-|Hne]; [by destruct r|].
  symmetry. apply Ascii.eqb_neq. congruence.
Qed.

Lemma is_empty_or_comment_lstrip (line : string) :
  is_empty_or_comment line =
    match lstrip line with
    | EmptyString => true
    | String c _ => Ascii.eqb c "#"%char
    end.
Proof.
  unfold is_empty_or_comment. pose proof (strip_head line) as Hh.
  destruct (strip line) as [|c r]; destruct (lstrip line) as [|c' r'];
    try done.
  injection Hh as <-. rewrite prefix_hash.
  by rewrite bool_decide_eq_false_2.
Qed.

(** X1: whether a line is blank or a comment is decided by its first
    character that is not whitespace: there is none, or it is "#". *)
Theorem is_empty_or_comment_first_char (line : string) :
  is_empty_or_comment line =
    match lstrip line with
    | EmptyString => true
    | String c _ => Ascii.eqb c "#"%char
    end.
Proof. apply is_empty_or_comment_lstrip. Qed.

Lemma leading_whitespace_is_space line :
  all_chars py_isspace (leading_whitespace line) = true.
Proof.
  induction line as [|a line IH]; [done|]. cbn.
  destruct (py_isspace a) eqn:Ha; [|done]. cbn. by rewrite Ha.
Qed.

Lemma find_indent_is_space lines :
  all_chars py_isspace (find_indent lines) = true.
Proof.
  induction lines as [|l lines IH]; [done|]. cbn.
  destruct (is_empty_or_comment l); [done|]. apply leading_whitespace_is_space.
Qed.

Lemma dedent_line_keeps_text line indent :
  all_chars py_isspace indent = true →
  lstrip (dedent_line line indent) = lstrip line.
Proof.
  revert indent. induction line as [|a line IH]; intros [|b indent];
    try done.
  cbn [all_chars]. intros [Hb Hind]%andb_prop.
  destruct (Ascii.eqb_spec a b) as [->|Hne].
  - rewrite dedent_line_same. cbn. rewrite Hb. by apply IH.
  - by rewrite dedent_line_differ.
Qed.

(** X2: dedenting takes whitespace only: whatever the body, a dedented
    line has the text of the line behind its leading whitespace, and is
    blank or a comment exactly when the line is. *)
Theorem dedent_takes_only_whitespace (body line : string) :
  let indent := find_indent (split_lines body) in
  lstrip (dedent_line line indent) = lstrip line ∧
  is_empty_or_comment (dedent_line line indent) = is_empty_or_comment line.
Proof.
  cbv zeta.
  pose proof (dedent_line_keeps_text line _
                (find_indent_is_space (split_lines body))) as H.
  split; [exact H|]. by rewrite !is_empty_or_comment_lstrip, H.
Qed.

(** ** Lines of the body text *)

Lemma split_lines_of_single_line l : single_line l = true → split_lines l = [l].
Proof.
  induction l as [|c l IH]; [done|]. unfold single_line. cbn.
  intros [Hc Hl]%andb_prop. apply negb_true_iff in Hc. rewrite Hc.
  by rewrite (IH Hl).
Qed.

Lemma split_lines_app_newline l rest :
  single_line l = true →
  split_lines (l ++ String (ascii_of_nat 10) rest)%string
  = l :: split_lines rest.
Proof.
  induction l as [|c l IH]; [done|]. unfold single_line. cbn [all_chars].
  intros [Hc Hl]%andb_prop. apply negb_true_iff in Hc.
  change (split_lines (String c (l ++ String (ascii_of_nat 10) rest)%string)
          = String c l :: split_lines rest).
  cbn [split_lines]. by rewrite Hc, (IH Hl).
Qed.

Lemma split_lines_single body :
  Forall (λ l, single_line l = true) (split_lines body).
Proof.
  induction body as [|c body IH]; [by repeat constructor|]. cbn.
  destruct (Ascii.eqb c (ascii_of_nat 10)) eqn:Hc; [by constructor|].
  assert (∀ l, single_line l = true → single_line (String c l) = true) as Hcons.
  { intros l Hl. unfold single_line in *. cbn. by rewrite Hc. }
  destruct (split_lines body) as [|l ls].
  - constructor; [by apply Hcons|constructor].
  - inversion IH as [|? ? Hl Hls]; subst. constructor; [by apply Hcons|done].
Qed.

(** Lines without line breaks, joined and split again, are the lines. *)
Lemma split_lines_of_concat lines :
  lines ≠ [] → Forall (λ l, single_line l = true) lines →
  split_lines (String.concat newline lines) = lines.
Proof.
  induction lines as [|l lines IH]; [done|]. intros _ Hall.
  inversion Hall as [|? ? Hl Hls]; subst.
  destruct lines as [|l' lines].
  - by apply split_lines_of_single_line.
  - change (String.concat newline (l :: l' :: lines))
      with (l ++ String (ascii_of_nat 10)
                   (String.concat newline (l' :: lines)))%string.
    rewrite split_lines_app_newline by done. f_equal. by apply IH.
Qed.

Lemma dedent_line_single line indent :
  single_line line = true → single_line (dedent_line line indent) = true.
Proof.
  revert indent. induction line as [|a line IH]; intros [|b indent];
    try done.
  intros Hline. destruct (Ascii.eqb_spec a b) as [->|Hne].
  - rewrite dedent_line_same. apply IH. unfold single_line in *. cbn in Hline.
    by apply andb_prop in Hline as [_ ?].
  - by rewrite dedent_line_differ.
Qed.

Lemma split_lines_of_dedent (body : string) :
  split_lines (dedent_function_body body)
  = map (λ line, dedent_line line (find_indent (split_lines body)))
        (split_lines body).
Proof.
  unfold dedent_function_body. apply split_lines_of_concat.
  - pose proof (split_lines_nonempty body).
    by destruct (split_lines body).
  - apply Forall_map. eapply Forall_impl; [apply split_lines_single|].
    intros l Hl. by apply dedent_line_single.
Qed.

(** X3: dedenting works line by line and keeps the number of lines: the
    lines of the dedented body are the dedented lines of the body, in
    order. *)
Theorem dedent_function_body_lines (body : string) :
  split_lines (dedent_function_body body)
  = map (λ line, dedent_line line (find_indent (split_lines body)))
        (split_lines body) ∧
  length (split_lines (dedent_function_body body))
  = length (split_lines body).
Proof.
  pose proof (split_lines_of_dedent body) as H.
  split; [exact H|]. by rewrite H, length_map.
Qed.

Lemma leading_whitespace_lstrip line :
  line = (leading_whitespace line ++ lstrip line)%string.
Proof.
  induction line as [|a line IH]; [done|]. cbn.
  destruct (py_isspace a); [|done].
  change (String a line
          = String a (leading_whitespace line ++ lstrip line)%string).
  by rewrite <- IH.
Qed.

Lemma leading_whitespace_of_lstrip line :
  leading_whitespace (lstrip line) = EmptyString.
Proof.
  induction line as [|a line IH]; [done|]. cbn.
  destruct (py_isspace a) eqn:Ha; [done|]. cbn. by rewrite Ha.
Qed.

Lemma first_code_line_indent lines line :
  first_code_line lines line → find_indent lines = leading_whitespace line.
Proof.
  intros (pre & post & -> & Hpre & Hline).
  induction Hpre as [|l pre Hl _ IH]; cbn.
  - by rewrite Hline.
  - by rewrite Hl.
Qed.

Lemma dedent_line_of_first_code_line (lines : list string) (line : string) :
  first_code_line lines line →
  dedent_line line (find_indent lines) = lstrip line.
Proof.
  intros Hfirst. rewrite (first_code_line_indent _ _ Hfirst).
  rewrite (leading_whitespace_lstrip line) at 1.
  apply dedent_line_indented.
Qed.

(** X4: the first line that is neither blank nor a comment starts at
    column zero after dedenting: it loses its leading whitespace and
    nothing else. *)
Theorem dedent_first_code_line (body line : string) :
  first_code_line (split_lines body) line →
  dedent_line line (find_indent (split_lines body)) = lstrip line ∧
  leading_whitespace (dedent_line line (find_indent (split_lines body)))
  = EmptyString.
Proof.
  intros Hfirst. rewrite (dedent_line_of_first_code_line _ _ Hfirst).
  split; [done|]. apply leading_whitespace_of_lstrip.
Qed.

Lemma dedent_first_code_line_witness :
  first_code_line (split_lines ("  # c" ++ newline ++ "    a = 1")%string)
    "    a = 1" ∧
  dedent_line "    a = 1"
    (find_indent (split_lines ("  # c" ++ newline ++ "    a = 1")%string))
  = "a = 1".
Proof.
  assert (first_code_line
            (split_lines ("  # c" ++ newline ++ "    a = 1")%string)
            "    a = 1") as H.
  { exists ["  # c"], []. split; [reflexivity|]. split; [|reflexivity].
    constructor; [reflexivity|constructor]. }
  split; [exact H|].
  exact (proj1 (dedent_first_code_line _ _ H)).
Defined.

Lemma find_indent_after_dedent lines indent :
  all_chars py_isspace indent = true →
  (∀ line, first_code_line lines line →
           leading_whitespace (dedent_line line indent) = EmptyString) →
  find_indent (map (λ line, dedent_line line indent) lines) = EmptyString.
Proof.
  intros Hind. induction lines as [|l lines IH]; [done|]. intros Hfirst.
  cbn.
  assert (is_empty_or_comment (dedent_line l indent) = is_empty_or_comment l)
    as ->.
  { by rewrite !is_empty_or_comment_lstrip, dedent_line_keeps_text. }
  destruct (is_empty_or_comment l) eqn:Hl.
  - apply IH. intros line (pre & post & -> & Hpre & Hline). apply Hfirst.
    exists (l :: pre), post. split; [done|]. split; [by constructor|done].
  - apply Hfirst. exists [], lines. by split_and!.
Qed.

(** X5: dedenting is idempotent: a dedented body is left as it is. *)
Theorem dedent_function_body_idempotent (body : string) :
  dedent_function_body (dedent_function_body body)
  = dedent_function_body body.
Proof.
  unfold dedent_function_body at 1. rewrite (split_lines_of_dedent body).
  rewrite find_indent_after_dedent.
  - rewrite map_ext with (g := id) by (intros; apply dedent_line_no_indent).
    by rewrite map_id.
  - apply find_indent_is_space.
  - intros line Hfirst. rewrite (dedent_line_of_first_code_line _ _ Hfirst).
    apply leading_whitespace_of_lstrip.
Qed.

(** X6: a body whose first line of code has no leading whitespace is
    returned as it is. *)
Theorem dedent_function_body_unindented (body line : string) :
  first_code_line (split_lines body) line →
  leading_whitespace line = EmptyString →
  dedent_function_body body = body.
Proof.
  intros Hfirst Hlw. unfold dedent_function_body.
  rewrite (first_code_line_indent _ _ Hfirst), Hlw.
  rewrite map_ext with (g := id) by (intros; apply dedent_line_no_indent).
  rewrite map_id. apply split_lines_concat.
Qed.

Lemma dedent_function_body_unindented_witness :
  first_code_line (split_lines ("a = 1" ++ newline ++ "  b = 2")%string)
    "a = 1" ∧
  leading_whitespace "a = 1" = EmptyString ∧
  dedent_function_body ("a = 1" ++ newline ++ "  b = 2")%string
  = ("a = 1" ++ newline ++ "  b = 2")%string.
Proof.
  assert (first_code_line
            (split_lines ("a = 1" ++ newline ++ "  b = 2")%string) "a = 1")
    as H.
  { exists [], ["  b = 2"]. split; [reflexivity|]. split; [constructor|].
    reflexivity. }
  split; [exact H|]. split; [reflexivity|].
  exact (dedent_function_body_unindented _ _ H eq_refl).
Defined.

(** ** Filling in, on nested dicts *)

Lemma items_get_set key v d k :
  items_get k (items_set key v d)
  = if decide (key = k) then Some v else items_get k d.
Proof.
  induction d as [|[k' x] d IH]; cbn.
  - by destruct (decide (key = k)).
  - destruct (decide (k' = key)) as [->|Hne]; cbn.
    + by destruct (decide (key = k)).
    + destruct (decide (k' = k)) as [->|Hne'].
      * by rewrite decide_False.
      * exact IH.
Qed.

Lemma items_get_not_key k (ps : list (string * value)) :
  k ∉ ps.*1 → items_get k ps = None.
Proof.
  induction ps as [|[k' x] ps IH]; [done|]. cbn.
  rewrite not_elem_of_cons. intros [Hne Hin].
  rewrite decide_False by done. by apply IH.
Qed.

Lemma fill_in_items_cons t key pv ps config :
  fill_in_items (VDict t ((key, pv) :: ps)) config =
    match items_get key config with
    | None => fill_in_items (VDict t ps) (items_set key pv config)
    | Some (VDict tr sub) =>
        match fill_in_items pv sub with
        | Ok sub' =>
            fill_in_items (VDict t ps) (items_set key (VDict tr sub') config)
        | Err e => Err e
        end
    | Some _ => fill_in_items (VDict t ps) config
    end.
Proof. cbn. by destruct (items_get key config) as [[]|]. Qed.

Lemma items_filled_in_nil c k : items_filled_in c [] c k.
Proof.
  unfold items_filled_in. destruct (items_get k c) as [v|] eqn:Hc; [|done].
  destruct (is_dict v) eqn:Hv; [|done]. split; [done|]. by exists v.
Qed.

(** X7: completing a nested dict from a preset dict (with distinct keys)
    never drops or changes what the dict binds to a value that is not a
    dict, leaves a dict a dict (the same one where the preset has no such
    key), and binds every other key of the preset to its preset value. *)
Theorem fill_in_items_completes
    (t : bool) (ps config config' : list (string * value)) (k : string) :
  NoDup ps.*1 →
  fill_in_items (VDict t ps) config = Ok config' →
  items_filled_in config ps config' k.
Proof.
  revert config. induction ps as [|[key x] ps IH]; intros config Hnd.
  - intros [= <-]. apply items_filled_in_nil.
  - rewrite fmap_cons in Hnd. cbn [fst] in Hnd.
    apply NoDup_cons in Hnd as [Hkey Hnd]. rewrite fill_in_items_cons.
    assert (∀ c1, items_get key config = items_get key c1 ∨ k ≠ key →
              (k ≠ key → items_get k c1 = items_get k config) →
              items_filled_in c1 ps config' k →
              k ≠ key ∨ items_get key config ≠ None →
              items_filled_in config ((key, x) :: ps) config' k) as Hstep.
    { intros c1 Hsame Hother Hc1 Hcase. unfold items_filled_in in *. cbn.
      destruct (decide (key = k)) as [<-|Hne].
      - destruct Hsame as [Hsame|?]; [|done]. destruct Hcase as [?|Hcase]; [done|].
        rewrite <- Hsame in Hc1. rewrite (items_get_not_key _ _ Hkey) in Hc1.
        destruct (items_get key config) as [v|]; [|done].
        destruct (is_dict v); [|done]. destruct Hc1 as [H1 H2].
        split; [done|exact H2].
      - by rewrite Hother in Hc1 by done. }
    destruct (items_get key config) as [old|] eqn:Hold.
    + destruct old as [| | | | |tr sub| |];
        try (intros Hfill; apply (Hstep config); [by left|done| |by right];
             by apply IH).
      destruct (fill_in_items x sub) as [sub'|e]; [|done]. intros Hfill.
      specialize (IH _ Hnd Hfill). unfold items_filled_in in *. cbn.
      destruct (decide (key = k)) as [<-|Hne].
      * rewrite Hold. cbn. rewrite items_get_set, decide_True in IH by done.
        cbn in IH. rewrite (items_get_not_key _ _ Hkey) in IH.
        destruct IH as [H1 _]. split; [done|]. eexists. by rewrite H1.
      * by rewrite items_get_set, decide_False in IH by done.
    + intros Hfill. specialize (IH _ Hnd Hfill).
      unfold items_filled_in in *. cbn.
      destruct (decide (key = k)) as [<-|Hne].
      * rewrite Hold. rewrite items_get_set, decide_True in IH by done.
        rewrite (items_get_not_key _ _ Hkey) in IH.
        destruct (is_dict x); [by apply IH|done].
      * by rewrite items_get_set, decide_False in IH by done.
Qed.

Lemma fill_in_items_completes_witness :
  NoDup [("p", VInt 1); ("q", VInt 2)].*1 ∧
  fill_in_items (VDict false [("p", VInt 1); ("q", VInt 2)])
    [("p", VInt 100)] = Ok [("p", VInt 100); ("q", VInt 2)] ∧
  items_filled_in [("p", VInt 100)] [("p", VInt 1); ("q", VInt 2)]
    [("p", VInt 100); ("q", VInt 2)] "q".
Proof.
  assert (NoDup [("p", VInt 1); ("q", VInt 2)].*1) as H.
  { cbn. apply NoDup_cons. split.
    - intros Hin. apply list_elem_of_singleton in Hin. discriminate Hin.
    - apply NoDup_singleton. }
  split; [exact H|]. split; [reflexivity|].
  exact (fill_in_items_completes false [("p", VInt 1); ("q", VInt 2)]
           [("p", VInt 100)] [("p", VInt 100); ("q", VInt 2)] "q" H eq_refl).
Defined.

(** The only error of a nested fill-in is the TypeError. *)
Lemma fill_in_items_error preset config e :
  fill_in_items preset config = Err e → e = TypeError.
Proof.
  revert config.
  induction preset as [| | | |s| | |t ps IH] using value_nested_ind;
    intros config; try by intros [= <-].
  - cbn. induction s as [|c s IHs]; [done|].
    destruct (items_get (String c "") config) as [[]|]; try by intros [= <-].
    all: exact IHs.
  - revert config. induction IH as [|[key x] ps Hx _ IHps]; intros config.
    + done.
    + rewrite fill_in_items_cons. cbn in Hx.
      destruct (items_get key config) as [[| | | | |tr sub| |]|]; try apply IHps.
      destruct (fill_in_items x sub) as [sub'|e'] eqn:Hsub.
      * apply IHps.
      * intros [= <-]. by apply (Hx sub).
Qed.

(** ** Filling in, on the namespace *)

Lemma fill_in_step_error key pv acc e :
  fill_in_step key pv acc = Err e →
  acc = Err e ∨ e = TypeError.
Proof.
  unfold fill_in_step. destruct acc as [c|e0]; cbn; [|intros [= <-]; by left].
  destruct (DogmaticDict.store c !! key) as [[| | | | |tr sub| |]|];
    try done.
  destruct (fill_in_items pv sub) as [sub'|e'] eqn:Hsub; [done|].
  cbn. intros [= <-]. right. by eapply fill_in_items_error.
Qed.

Lemma fill_in_mismatch
    (config : DogmaticDict.t) (preset : gmap string value)
    (k : string) (pv : value) (tr : bool) (sub : list (string * value)) :
  preset !! k = Some pv →
  DogmaticDict.store config !! k = Some (VDict tr sub) →
  is_ok (fill_in_items pv sub) = false →
  recursive_fill_in config preset = Err TypeError.
Proof.
  intros Hp Hs Hbad. unfold recursive_fill_in.
  enough (
    (∀ c, map_fold fill_in_step (Ok config) preset = Ok c →
          ∀ j, preset !! j = None →
               DogmaticDict.store c !! j = DogmaticDict.store config !! j) ∧
    (∀ e, map_fold fill_in_step (Ok config) preset = Err e → e = TypeError) ∧
    (preset !! k = Some pv →
     is_ok (map_fold fill_in_step (Ok config) preset) = false)) as (_ & He & Hk).
  { specialize (Hk Hp).
    destruct (map_fold fill_in_step (Ok config) preset) as [c|e]; [done|].
    by rewrite (He e). }
  clear Hp.
  apply (map_fold_weak_ind (λ r m,
    (∀ c, r = Ok c →
          ∀ j, m !! j = None →
               DogmaticDict.store c !! j = DogmaticDict.store config !! j) ∧
    (∀ e, r = Err e → e = TypeError) ∧
    (m !! k = Some pv → is_ok r = false))).
  - split_and!; [by intros c [= <-]|done|by rewrite lookup_empty].
  - intros i x m r Hm (Hkeep & Herr & Hfail). split_and!.
    + intros c Hc j Hj.
      apply lookup_insert_None in Hj as [Hj Hne].
      unfold fill_in_step in Hc. destruct r as [c0|]; [cbn in Hc|done].
      rewrite <- (Hkeep c0 eq_refl j Hj).
      destruct (DogmaticDict.store c0 !! i) as [[| | | | |tr0 sub0| |]|];
        try (by injection Hc as <-).
      * destruct (fill_in_items x sub0); [cbn in Hc|done].
        injection Hc as <-. cbn. by rewrite lookup_insert_ne.
      * injection Hc as <-. by apply setitem_store_other.
    + intros e [->|He]%fill_in_step_error; [by apply Herr|done].
    + destruct (decide (i = k)) as [->|Hne].
      * rewrite lookup_insert_eq. intros [= ->].
        destruct r as [c0|]; [|done]. cbn.
        rewrite (Hkeep c0 eq_refl k Hm), Hs.
        by destruct (fill_in_items pv sub).
      * rewrite lookup_insert_ne by done. intros Hk%Hfail.
        by destruct r.
Qed.

(** X8: the fill-in step raises TypeError when the namespace binds a key
    to a dict that the preset value for that key cannot complete (the
    nested fill-in raises), as for a preset value that is a number. *)
Theorem recursive_fill_in_type_mismatch
    (config : DogmaticDict.t) (preset : gmap string value)
    (k : string) (pv : value) (tr : bool) (sub : list (string * value)) :
  preset !! k = Some pv →
  DogmaticDict.store config !! k = Some (VDict tr sub) →
  is_ok (fill_in_items pv sub) = false →
  recursive_fill_in config preset = Err TypeError.
Proof. apply fill_in_mismatch. Qed.

Lemma recursive_fill_in_type_mismatch_witness :
  ({["y" := VInt 3]} : gmap string value) !! "y" = Some (VInt 3) ∧
  DogmaticDict.store
    (DogmaticDict.dogmatize {["y" := VDict false [("p", VInt 1)]]}) !! "y"
  = Some (VDict false [("p", VInt 1)]) ∧
  is_ok (fill_in_items (VInt 3) [("p", VInt 1)]) = false ∧
  recursive_fill_in
    (DogmaticDict.dogmatize {["y" := VDict false [("p", VInt 1)]]})
    {["y" := VInt 3]} = Err TypeError.
Proof.
  split; [reflexivity|]. split; [reflexivity|]. split; [reflexivity|].
  exact (recursive_fill_in_type_mismatch
           (DogmaticDict.dogmatize {["y" := VDict false [("p", VInt 1)]]})
           {["y" := VInt 3]} "y" (VInt 3) false [("p", VInt 1)]
           eq_refl eq_refl eq_refl).
Defined.

(** X9: on a namespace that binds its authoritative keys and whose
    side-table serves no key of the preset, a fill-in that returns has
    changed the store and none of the records; a key that was not bound
    is bound to its preset value (and stays unbound without one), a key
    bound to a value that is not a dict keeps it, and a key bound to a
    dict is still bound to a dict, the same one if the preset has nothing
    for the key. *)
Theorem recursive_fill_in_completes
    (config config' : DogmaticDict.t) (preset : gmap string value) :
  DogmaticDict.authoritative config ⊆ dom (DogmaticDict.store config) →
  (∀ k, is_Some (preset !! k) → DogmaticDict.fallback config !! k = None) →
  recursive_fill_in config preset = Ok config' →
  config' = DogmaticDict.with_store (DogmaticDict.store config') config ∧
  ∀ k, filled_in (DogmaticDict.store config) preset
         (DogmaticDict.store config') k.
Proof. apply recursive_fill_in_spec. Qed.

Lemma recursive_fill_in_completes_witness :
  ∃ config',
    recursive_fill_in (DogmaticDict.dogmatize {["x" := VInt 10]})
      {["x" := VInt 1; "y" := VInt 5]} = Ok config' ∧
    DogmaticDict.modified config' = ∅ ∧
    DogmaticDict.store config' !! "x" = Some (VInt 10) ∧
    DogmaticDict.store config' !! "y" = Some (VInt 5).
Proof.
  assert (∃ config',
            recursive_fill_in (DogmaticDict.dogmatize {["x" := VInt 10]})
              {["x" := VInt 1; "y" := VInt 5]} = Ok config') as [c Hc].
  { eexists. vm_compute. reflexivity. }
  destruct (recursive_fill_in_completes
              (DogmaticDict.dogmatize {["x" := VInt 10]}) c
              {["x" := VInt 1; "y" := VInt 5]}) as [Hrec Hfilled].
  - cbn. reflexivity.
  - intros k _. reflexivity.
  - exact Hc.
  - exists c. split; [exact Hc|]. split; [by rewrite Hrec|].
    split; [exact (Hfilled "x")|exact (Hfilled "y")].
Defined.

(** ** Chains of any length *)

Section chain_facts.
Variables fixed fallback : gmap string value.

Lemma chain_fold_error e l :
  foldl (chain_step fixed fallback) (Err e) l = Err e.
Proof. by induction l. Qed.

Lemma chain_fold_cons R s0 A l :
  foldl (chain_step fixed fallback) (Ok (R, s0)) (A :: l) =
    match call_entry A fixed R fallback with
    | Ok cfg =>
        foldl (chain_step fixed fallback)
          (Ok (entries cfg ∪ R, s0 ++ [cfg])) l
    | Err e => Err e
    end.
Proof.
  cbn. destruct (call_entry A fixed R fallback) as [cfg|e]; cbn; [done|].
  apply chain_fold_error.
Qed.


Lemma chain_fold_inv R0 s0 l R s :
  foldl (chain_step fixed fallback) (Ok (R0, s0)) l = Ok (R, s) →
  length s = (length s0 + length l)%nat ∧
  dom R0 ⊆ dom R ∧
  (plain_map R0 → plain_map R).
Proof.
  revert R0 s0. induction l as [|A l IH]; intros R0 s0.
  - intros [= <- <-]. cbn. split_and!; [lia|done|done].
  - rewrite chain_fold_cons.
    destruct (call_entry A fixed R0 fallback) as [cfg|e] eqn:HA; [|done].
    intros (Hlen & Hdom & Hplain)%IH. split_and!.
    + rewrite Hlen, length_app. cbn. lia.
    + etrans; [|exact Hdom]. rewrite dom_union_L. apply union_subseteq_r.
    + intros HR0. apply Hplain.
      intros k v [Hv|[_ Hv]]%lookup_union_Some_raw.
      * by eapply (call_entry_plain _ _ _ _ _ HA).
      * by eapply HR0.
Qed.

End chain_facts.

Lemma undogmatize_map_plain (m : gmap string value) :
  plain_map (undogmatize <$> m).
Proof.
  intros k v. rewrite lookup_fmap. destruct (m !! k) as [x|]; [|done].
  intros [= <-]. apply undogmatize_plain.
Qed.

Lemma chain_nonempty_inv l fixed preset fallback final summaries :
  l ≠ [] →
  chain_evaluate_config_scopes l fixed preset fallback
  = Ok (final, summaries) →
  ∃ R, foldl (chain_step (default ∅ fixed) (default ∅ fallback))
         (Ok (default ∅ preset, [])) l = Ok (R, summaries) ∧
       final = undogmatize <$> R.
Proof.
  intros Hl. unfold chain_evaluate_config_scopes.
  destruct (foldl _ _ l) as [[R s]|e]; [cbn|done].
  destruct l; [done|]. intros [= <- <-]. by exists R.
Qed.

(** X10: a chain that returns has one summary per entry, keeps every key
    of the starting preset in its result, and returns plain values
    only. *)
Theorem chain_keeps_preset_keys
    (config_scopes : list ConfigEntry)
    (fixed preset fallback : option (gmap string value))
    (final : gmap string value) (summaries : list ConfigSummary) :
  chain_evaluate_config_scopes config_scopes fixed preset fallback
  = Ok (final, summaries) →
  length summaries = length config_scopes ∧
  dom (default ∅ preset) ⊆ dom final ∧
  plain_map final.
Proof.
  destruct config_scopes as [|A l].
  - intros [= <- <-]. split_and!; [done| |apply undogmatize_map_plain].
    rewrite dom_fmap_L, dom_union_L. apply union_subseteq_r.
  - intros (R & Hfold & ->)%chain_nonempty_inv; [|done].
    apply chain_fold_inv in Hfold as (Hlen & Hdom & _).
    split_and!; [done| |apply undogmatize_map_plain].
    by rewrite dom_fmap_L.
Qed.

Lemma chain_keeps_preset_keys_witness :
  ∃ final summaries,
    chain_evaluate_config_scopes [Scope scope_x; Scope empty_scope]
      None (Some {["_x" := VInt 1]}) None = Ok (final, summaries) ∧
    length summaries = 2%nat ∧ final !! "_x" = Some (VInt 1).
Proof.
  assert (∃ final summaries,
    chain_evaluate_config_scopes [Scope scope_x; Scope empty_scope]
      None (Some {["_x" := VInt 1]}) None = Ok (final, summaries))
    as (final & summaries & H) by (eexists _, _; vm_compute; reflexivity).
  destruct (chain_keeps_preset_keys _ _ _ _ _ _ H) as (Hlen & _ & _).
  exists final, summaries. split; [exact H|]. split; [exact Hlen|].
  vm_compute in H. injection H as <- _. reflexivity.
Defined.

(** X11: a chain stops at the first entry that raises, with its error:
    if the loop over the entries before A leaves the running result R,
    and A raises on R, the chain raises that error, whatever comes after
    A. *)
Theorem chain_raises_with_entry
    (A : ConfigEntry) (pre post : list ConfigEntry)
    (fixed preset fallback R : gmap string value)
    (summaries : list ConfigSummary) (e : exn) :
  foldl (chain_step fixed fallback) (Ok (preset, [])) pre
  = Ok (R, summaries) →
  call_entry A fixed R fallback = Err e →
  chain_evaluate_config_scopes (pre ++ A :: post)
    (Some fixed) (Some preset) (Some fallback) = Err e.
Proof.
  intros Hfold HA. unfold chain_evaluate_config_scopes. cbn [from_option id].
  by rewrite foldl_app, Hfold, chain_fold_cons, HA.
Qed.

Lemma chain_raises_with_entry_witness :
  let A := Scope {| arg_spec_args := ["lr"]; _body_code := [];
                    func_globals := ∅ |} in
  foldl (chain_step ∅ ∅) (Ok (∅, [])) [Scope scope_x]
  = Ok ({["x" := VInt 5]},
        [{| entries := {["x" := VInt 5]}; added_values := {["x"]};
            ignored_fallback_writes := []; modified := ∅;
            typechanges := ∅ |}]) ∧
  chain_evaluate_config_scopes ([Scope scope_x] ++ A :: [Scope empty_scope])
    (Some ∅) (Some ∅) (Some ∅)
  = Err (UnresolvedParameter "lr" {["x"]}).
Proof.
  cbv zeta.
  assert (foldl (chain_step ∅ ∅) (Ok (∅, [])) [Scope scope_x]
          = Ok ({["x" := VInt 5]},
                [{| entries := {["x" := VInt 5]}; added_values := {["x"]};
                    ignored_fallback_writes := []; modified := ∅;
                    typechanges := ∅ |}])) as H
    by (vm_compute; reflexivity).
  split; [exact H|].
  apply (chain_raises_with_entry _ _ _ ∅ ∅ ∅ _ _ _ H).
  vm_compute. reflexivity.
Defined.



(** X13: the last entry wins: in the result of a chain that returns,
    every key of the last summary has the value of that summary. *)
Theorem chain_last_entry_wins
    (pre : list ConfigEntry) (B : ConfigEntry)
    (fixed preset fallback : option (gmap string value))
    (final : gmap string value) (summaries : list ConfigSummary) :
  chain_evaluate_config_scopes (pre ++ [B]) fixed preset fallback
  = Ok (final, summaries) →
  ∃ sB, last summaries = Some sB ∧
        ∀ k v, entries sB !! k = Some v → final !! k = Some v.
Proof.
  intros (R & Hfold & ->)%chain_nonempty_inv; [|by destruct pre].
  rewrite foldl_app in Hfold.
  destruct (foldl _ _ pre) as [[R0 s0]|e]; [|done].
  rewrite chain_fold_cons in Hfold.
  destruct (call_entry B _ R0 _) as [sB|e] eqn:HB; [|done].
  injection Hfold as <- <-. exists sB. split; [apply last_snoc|].
  intros k v Hv. rewrite lookup_fmap, (lookup_union_Some_l _ _ _ _ Hv). cbn.
  by rewrite undogmatize_of_plain by (by eapply (call_entry_plain _ _ _ _ _ HB)).
Qed.

Lemma chain_last_entry_wins_witness :
  ∃ final summaries sB,
    chain_evaluate_config_scopes
      ([Literal {| _conf := {["x" := VInt 1]} |}] ++ [Scope scope_x])
      None None None = Ok (final, summaries) ∧
    last summaries = Some sB ∧ final !! "x" = Some (VInt 5).
Proof.
  assert (∃ final summaries,
    chain_evaluate_config_scopes
      ([Literal {| _conf := {["x" := VInt 1]} |}] ++ [Scope scope_x])
      None None None = Ok (final, summaries))
    as (final & summaries & H) by (eexists _, _; vm_compute; reflexivity).
  destruct (chain_last_entry_wins _ _ _ _ _ _ _ H) as (sB & Hlast & Hwin).
  exists final, summaries, sB. split; [exact H|]. split; [exact Hlast|].
  apply Hwin. vm_compute in H. injection H as _ <-.
  injection Hlast as <-. reflexivity.
Defined.

(** X14: a chain that ends with a ConfigDict returns every key of
    [fixed] with its fixed value, in plain form. *)
Theorem chain_ending_in_literal_returns_fixed
    (pre : list ConfigEntry) (c : ConfigDict)
    (fixed : gmap string value) (preset fallback : option (gmap string value))
    (final : gmap string value) (summaries : list ConfigSummary)
    (k : string) (fv : value) :
  chain_evaluate_config_scopes (pre ++ [Literal c]) (Some fixed) preset
    fallback = Ok (final, summaries) →
  fixed !! k = Some fv →
  final !! k = Some (undogmatize fv).
Proof.
  intros (R & Hfold & ->)%chain_nonempty_inv Hk; [|by destruct pre].
  rewrite foldl_app in Hfold.
  destruct (foldl _ _ pre) as [[R0 s0]|e]; [|done].
  rewrite chain_fold_cons in Hfold. cbn in Hfold. injection Hfold as <- _.
  pose proof (update_seeded fixed (_conf c) _
                (update_seeded fixed R0 _ (dogmatize_seeded fixed)))
    as [_ Hseed].
  rewrite lookup_fmap.
  erewrite lookup_union_Some_l.
  2:{ unfold DogmaticDict.undogmatize_dict. rewrite lookup_fmap.
      by rewrite (Hseed k fv Hk). }
  cbn. f_equal. apply undogmatize_of_plain, undogmatize_plain.
Qed.

Lemma chain_ending_in_literal_returns_fixed_witness :
  ∃ final summaries,
    chain_evaluate_config_scopes
      ([Scope scope_x] ++ [Literal {| _conf := {["x" := VInt 1]} |}])
      (Some {["x" := VInt 10]}) None None = Ok (final, summaries) ∧
    ({["x" := VInt 10]} : gmap string value) !! "x" = Some (VInt 10) ∧
    final !! "x" = Some (undogmatize (VInt 10)).
Proof.
  assert (∃ final summaries,
    chain_evaluate_config_scopes
      ([Scope scope_x] ++ [Literal {| _conf := {["x" := VInt 1]} |}])
      (Some {["x" := VInt 10]}) None None = Ok (final, summaries))
    as (final & summaries & H) by (eexists _, _; vm_compute; reflexivity).
  exists final, summaries. split; [exact H|]. split; [reflexivity|].
  exact (chain_ending_in_literal_returns_fixed _ _ _ _ _ _ _ "x" (VInt 10)
           H eq_refl).
Defined.

(** ** ConfigDict *)

Lemma update_store other d k :
  DogmaticDict.store (DogmaticDict.update other d) !! k =
    if decide (k ∈ DogmaticDict.authoritative d)
    then DogmaticDict.store d !! k
    else (other ∪ DogmaticDict.store d) !! k.
Proof.
  unfold DogmaticDict.update.
  enough (DogmaticDict.authoritative (map_fold DogmaticDict.setitem d other)
          = DogmaticDict.authoritative d ∧
          DogmaticDict.store (map_fold DogmaticDict.setitem d other) !! k =
            if decide (k ∈ DogmaticDict.authoritative d)
            then DogmaticDict.store d !! k
            else (other ∪ DogmaticDict.store d) !! k) as [_ H] by exact H.
  apply (map_fold_weak_ind (λ r m,
    DogmaticDict.authoritative r = DogmaticDict.authoritative d ∧
    DogmaticDict.store r !! k =
      if decide (k ∈ DogmaticDict.authoritative d)
      then DogmaticDict.store d !! k
      else (m ∪ DogmaticDict.store d) !! k)).
  - split; [done|]. case_decide; [done|]. by rewrite (left_id_L ∅ (∪)).
  - intros i x m r Hm [Hauth IH]. split; [by rewrite setitem_authoritative|].
    destruct (decide (i ∈ DogmaticDict.authoritative d)) as [Hi|Hi].
    + rewrite setitem_store_reverted by (by rewrite Hauth). rewrite IH.
      case_decide as Hk; [done|].
      assert (i ≠ k) as Hne by (intros ->; done).
      rewrite !lookup_union, lookup_insert_ne; done.
    + rewrite setitem_store_accepted by (by rewrite Hauth).
      destruct (decide (i = k)) as [->|Hne].
      * rewrite lookup_insert_eq, decide_False by done.
        symmetry. apply lookup_union_Some_l, lookup_insert_eq.
      * rewrite lookup_insert_ne, IH by done. case_decide; [done|].
        rewrite !lookup_union, lookup_insert_ne; done.
Qed.

Lemma ConfigDict_call_store (self : ConfigDict)
    (fixed preset : gmap string value) :
  DogmaticDict.store
    (DogmaticDict.update (_conf self)
       (DogmaticDict.update preset (DogmaticDict.dogmatize fixed)))
  = fixed ∪ (_conf self ∪ preset).
Proof.
  apply map_eq. intros k. rewrite update_store.
  assert (DogmaticDict.authoritative
            (DogmaticDict.update preset (DogmaticDict.dogmatize fixed))
          = dom fixed) as ->.
  { apply (update_seeded fixed), dogmatize_seeded. }
  rewrite !lookup_union, !update_store. cbn.
  destruct (decide (k ∈ dom fixed)) as [Hk|Hk].
  - apply elem_of_dom in Hk as [v Hv]. rewrite Hv.
    by destruct (_conf self !! k), (preset !! k).
  - apply not_elem_of_dom in Hk. rewrite !lookup_union, Hk.
    destruct (_conf self !! k), (preset !! k); done.
Qed.

Lemma ConfigDict_call_entries
    (self : ConfigDict) (fixed : option (gmap string value))
    (preset : gmap string value) (fallback : option (gmap string value)) :
  entries (ConfigDict_call self fixed preset fallback)
  = undogmatize <$> (default ∅ fixed ∪ (_conf self ∪ preset)).
Proof.
  cbn. unfold DogmaticDict.undogmatize_dict. by rewrite ConfigDict_call_store.
Qed.

(** X15: the result of a ConfigDict is, in plain form, [fixed], then the
    entry's own values, then [preset]: own values win over the preset,
    and [fixed] wins over both. *)
Theorem ConfigDict_call_precedence
    (self : ConfigDict) (fixed : option (gmap string value))
    (preset : gmap string value) (fallback : option (gmap string value)) :
  entries (ConfigDict_call self fixed preset fallback)
  = undogmatize <$> (default ∅ fixed ∪ (_conf self ∪ preset)).
Proof. apply ConfigDict_call_entries. Qed.

Lemma update_modified_authoritative other d :
  DogmaticDict.modified d ⊆ DogmaticDict.authoritative d →
  DogmaticDict.modified (DogmaticDict.update other d)
  ⊆ DogmaticDict.authoritative d ∩ (dom other ∪ DogmaticDict.modified d).
Proof.
  intros Hd. unfold DogmaticDict.update.
  enough (DogmaticDict.authoritative (map_fold DogmaticDict.setitem d other)
          = DogmaticDict.authoritative d ∧
          DogmaticDict.modified (map_fold DogmaticDict.setitem d other)
          ⊆ DogmaticDict.authoritative d
            ∩ (dom other ∪ DogmaticDict.modified d)) as [_ H] by exact H.
  apply (map_fold_weak_ind (λ r m,
    DogmaticDict.authoritative r = DogmaticDict.authoritative d ∧
    DogmaticDict.modified r
    ⊆ DogmaticDict.authoritative d ∩ (dom m ∪ DogmaticDict.modified d))).
  - split; [done|]. intros x Hx. apply elem_of_intersection.
    split; [by apply Hd|]. apply elem_of_union. by right.
  - intros i x m r Hm [Hauth IH]. split; [by rewrite setitem_authoritative|].
    unfold DogmaticDict.setitem. rewrite Hauth, dom_insert_L.
    case_decide as Hi; cbn; intros y Hy.
    + apply elem_of_union in Hy as [->%elem_of_singleton|Hy].
      * apply elem_of_intersection. split; [done|].
        apply elem_of_union. left. apply elem_of_union. left.
        by apply elem_of_singleton.
      * apply IH, elem_of_intersection in Hy as [Hy1 Hy2].
        apply elem_of_intersection. split; [done|].
        apply elem_of_union in Hy2 as [?|?]; apply elem_of_union;
          [left; apply elem_of_union; by right|by right].
    + apply IH, elem_of_intersection in Hy as [Hy1 Hy2].
      apply elem_of_intersection. split; [done|].
      apply elem_of_union in Hy2 as [?|?]; apply elem_of_union;
        [left; apply elem_of_union; by right|by right].
Qed.

(** X16: the records of a ConfigDict evaluation: [added_values] are the
    keys of the preset and of the entry that [fixed] lacks, [modified]
    holds only keys of [fixed] that the preset or the entry has, and no
    fallback write is ever reported. *)
Theorem ConfigDict_call_records
    (self : ConfigDict) (fixed : option (gmap string value))
    (preset : gmap string value) (fallback : option (gmap string value)) :
  let s := ConfigDict_call self fixed preset fallback in
  added_values s = (dom preset ∪ dom (_conf self)) ∖ dom (default ∅ fixed) ∧
  modified s ⊆ dom (default ∅ fixed) ∩ (dom preset ∪ dom (_conf self)) ∧
  ignored_fallback_writes s = [].
Proof.
  cbn. split_and!; [| |done].
  - unfold DogmaticDict.revelation. rewrite ConfigDict_call_store.
    assert (DogmaticDict.authoritative
              (DogmaticDict.update (_conf self)
                 (DogmaticDict.update preset
                    (DogmaticDict.dogmatize (default ∅ fixed))))
            = dom (default ∅ fixed)) as ->.
    { apply (update_seeded (default ∅ fixed)), update_seeded,
        dogmatize_seeded. }
    rewrite !dom_union_L. apply set_eq. intros x.
    rewrite !elem_of_difference, !elem_of_union. tauto.
  - pose proof (update_modified_authoritative preset
                  (DogmaticDict.dogmatize (default ∅ fixed))) as H1.
    cbn in H1. specialize (H1 (empty_subseteq _)).
    pose proof (update_modified_authoritative (_conf self)
                  (DogmaticDict.update preset
                     (DogmaticDict.dogmatize (default ∅ fixed)))) as H2.
    assert (DogmaticDict.authoritative
              (DogmaticDict.update preset
                 (DogmaticDict.dogmatize (default ∅ fixed)))
            = dom (default ∅ fixed)) as Hauth.
    { apply (update_seeded (default ∅ fixed)), dogmatize_seeded. }
    rewrite Hauth in H2.
    intros x Hx. apply H2 in Hx.
    + apply elem_of_intersection in Hx as [Hx1 Hx2].
      apply elem_of_intersection. split; [done|].
      apply elem_of_union in Hx2 as [?|Hx2]; apply elem_of_union;
        [by right|].
      apply H1, elem_of_intersection in Hx2 as [_ Hx2].
      apply elem_of_union in Hx2 as [?|Hx2]; [by left|].
      by apply elem_of_empty in Hx2.
    + intros y Hy. by apply H1, elem_of_intersection in Hy as [? _].
Qed.

(** X17: a ConfigDict that was constructed holds only identifier keys,
    none starting with "_", bound to plain values that json can
    encode. *)
Theorem ConfigDict_init_stores_valid_items
    (d : list (value * value)) (c : ConfigDict) (k : string) (w : value) :
  ConfigDict_init d = Ok c →
  _conf c !! k = Some w →
  PYTHON_IDENTIFIER k = true ∧ String.prefix "_" k = false ∧
  json_serializable w = true ∧ plain w = true.
Proof.
  unfold ConfigDict_init.
  pose proof (ConfigDict_init_loop_ok ∅ d) as Hall.
  destruct (ConfigDict_init_loop ∅ d) as [conf|e] eqn:Hloop; [cbn|done].
  intros [= <-]. cbn. intros Hw. symmetry in Hall. cbn in Hall.
  destruct (ConfigDict_init_loop_app ∅ d [] Hall) as (conf' & Heq & Hconf').
  rewrite app_nil_r, Hloop in Heq. cbn in Heq. injection Heq as <-.
  destruct (Hconf' k w Hw) as [Hin|(v & Hin & ->)].
  { by rewrite lookup_empty in Hin. }
  rewrite forallb_forall in Hall.
  apply list_elem_of_In, Hall in Hin. unfold valid_item in Hin. cbn in Hin.
  apply andb_prop in Hin as [Hk Hv]. split_and!.
  - exact Hk.
  - by apply PYTHON_IDENTIFIER_not_private.
  - destruct v; try done. cbn [stored_value]. by rewrite undogmatize_json.
  - destruct v; try done. cbn [stored_value]. apply undogmatize_plain.
Qed.

Lemma ConfigDict_init_stores_valid_items_witness :
  ∃ c, ConfigDict_init [(VStr "flag", VNpBool true)] = Ok c ∧
       _conf c !! "flag" = Some (VBool true) ∧
       PYTHON_IDENTIFIER "flag" = true ∧ String.prefix "_" "flag" = false ∧
       json_serializable (VBool true) = true ∧ plain (VBool true) = true.
Proof.
  eexists. split; [reflexivity|]. split; [reflexivity|].
  exact (ConfigDict_init_stores_valid_items
           [(VStr "flag", VNpBool true)] _ "flag" (VBool true)
           eq_refl eq_refl).
Defined.

Lemma undogmatize_idempotent v : undogmatize (undogmatize v) = undogmatize v.
Proof. apply undogmatize_of_plain, undogmatize_plain. Qed.

(** X18: a ConfigDict evaluated on its own result returns that result
    again: repeating a literal entry in a chain changes nothing. *)
Theorem ConfigDict_call_idempotent
    (self : ConfigDict) (fixed : option (gmap string value))
    (preset : gmap string value) (fallback : option (gmap string value)) :
  entries (ConfigDict_call self fixed
             (entries (ConfigDict_call self fixed preset fallback)) fallback)
  = entries (ConfigDict_call self fixed preset fallback).
Proof.
  rewrite !ConfigDict_call_entries. apply map_eq. intros k.
  rewrite !lookup_fmap, !lookup_union, !lookup_fmap, !lookup_union.
  destruct (default ∅ fixed !! k), (_conf self !! k), (preset !! k); cbn;
    try done.
  by rewrite undogmatize_idempotent.
Qed.

(** ** ConfigScope *)

Lemma bind_args_view preset fallback available args d view d' view' x :
  bind_args args preset fallback available d view = Ok (d', view') →
  view' !! x =
    if decide (x ∈ args ∧ preset !! x = None) then fallback !! x
    else view !! x.
Proof.
  revert d view. induction args as [|a args IH]; intros d view;
    cbn [bind_args].
  - intros [= <- <-]. rewrite decide_False; [done|].
    intros [Hx _]. by apply elem_of_nil in Hx.
  - destruct (decide (a ∈ available)) as [Ha|Ha]; [|done].
    destruct (preset !! a) as [pv|] eqn:Hp.
    + intros Hb. rewrite (IH _ _ Hb). apply decide_ext.
      rewrite elem_of_cons. split; [tauto|].
      intros [[->|?] ?]; [congruence|tauto].
    + destruct (fallback !! a) as [fv|] eqn:Hf; [|done].
      intros Hb. rewrite (IH _ _ Hb).
      destruct (decide (x = a)) as [->|Hne].
      * rewrite lookup_insert_eq.
        rewrite (decide_True (P := a ∈ a :: args ∧ _));
          [|split; [apply elem_of_cons; by left|done]].
        rewrite Hf. by destruct (decide _).
      * rewrite lookup_insert_ne by done. apply decide_ext.
        rewrite elem_of_cons. tauto.
Qed.



(** X20: an entry of [preset] that the body leaves alone reaches the
    result: for a key that [fixed] lacks and the body does not assign,
    the result holds what the harvest makes of the preset value
    (provided that value is not a dict, or the key is not a declared
    parameter). *)
Theorem ConfigScope_unused_preset_returned
    (self : ConfigScope) (fixed preset fallback : option (gmap string value))
    (s : ConfigSummary) (k : string) (pv : value) :
  ConfigScope_call self fixed preset fallback = Ok s →
  default ∅ preset !! k = Some pv →
  k ∉ dom (default ∅ fixed) →
  ¬ assigns (_body_code self) k →
  is_dict pv = false ∨ k ∉ arg_spec_args self →
  entries s !! k = harvest_value k pv.
Proof.
  intros (d & d' & m & Hrun & Hfill & Hh & ->)%ConfigScope_call_inv Hp Hf Hna Hcase.
  cbn. rewrite (harvest_lookup _ _ _ Hh).
  destruct (ConfigScope_fill_in _ _ _ _ _ _ Hrun Hfill) as [_ Hfilled].
  apply ConfigScope_run_inv in Hrun as (d0 & view & Hb & Hex).
  specialize (Hfilled k). unfold filled_in in Hfilled.
  rewrite (exec_body_untouched _ _ _ _ _ Hex Hna) in Hfilled. cbn in Hfilled.
  rewrite (bind_args_store _ _ _ _ _ _ _ _ k Hb), Hp in Hfilled.
  cbn in Hfilled. apply not_elem_of_dom in Hf as Hnone.
  enough (DogmaticDict.store d' !! k = Some pv) as -> by done.
  destruct (decide (k ∈ arg_spec_args self ∧ k ∉ dom (default ∅ fixed)))
    as [[Hin _]|Hnot].
  - destruct Hcase as [Hnd|?]; [|done]. by rewrite Hnd in Hfilled.
  - rewrite Hnone in Hfilled. by rewrite Hfilled.
Qed.

Lemma ConfigScope_unused_preset_returned_witness :
  ∃ s, ConfigScope_call scope_x None (Some {["y" := VInt 5]}) None = Ok s ∧
       entries s !! "y" = Some (VInt 5).
Proof.
  assert (∃ s, ConfigScope_call scope_x None (Some {["y" := VInt 5]}) None
               = Ok s) as [s H] by (eexists; vm_compute; reflexivity).
  exists s. split; [exact H|].
  rewrite (ConfigScope_unused_preset_returned scope_x None
             (Some {["y" := VInt 5]}) None s "y" (VInt 5) H eq_refl).
  - reflexivity.
  - cbn. apply not_elem_of_empty.
  - unfold assigns. cbn. intros Hin.
    apply list_elem_of_singleton in Hin. discriminate Hin.
  - by left.
Defined.



Lemma setitem_modified_bound key v d :
  DogmaticDict.modified d ⊆ DogmaticDict.authoritative d →
  DogmaticDict.modified (DogmaticDict.setitem key v d)
  ⊆ DogmaticDict.authoritative (DogmaticDict.setitem key v d).
Proof.
  intros Hd. unfold DogmaticDict.setitem. case_decide; cbn; [|done].
  intros x [Hx%elem_of_singleton|Hx]%elem_of_union; [by subst|by apply Hd].
Qed.

Lemma setitem_ignored_inv key v d x :
  x ∈ DogmaticDict.ignored_fallback_writes (DogmaticDict.setitem key v d) →
  x ∈ DogmaticDict.ignored_fallback_writes d ∨
  (x = key ∧ is_Some (DogmaticDict.fallback d !! key)).
Proof.
  unfold DogmaticDict.setitem. case_decide; cbn; [by left|].
  unfold DogmaticDict.fallback_only.
  destruct (bool_decide (DogmaticDict.store d !! key = None)); cbn;
    [|by left].
  case_bool_decide as Hf; [|by left].
  intros [Hx|Hx%list_elem_of_singleton]%elem_of_app; [by left|subst; by right].
Qed.

Lemma exec_body_ignored_inv globals code d d' x :
  exec_body globals code d = Ok d' →
  x ∈ DogmaticDict.ignored_fallback_writes d' →
  x ∈ DogmaticDict.ignored_fallback_writes d ∨
  (assigns code x ∧ is_Some (DogmaticDict.fallback d !! x)).
Proof.
  unfold assigns. revert d. induction code as [|s code IH]; intros d Hex.
  - injection Hex as <-. by left.
  - apply exec_body_cons in Hex as (d1 & Hs & Hrest).
    apply exec_stmt_inv in Hs as (v & _ & ->).
    intros [Hx|[Hx Hf]]%(IH _ Hrest).
    + apply setitem_ignored_inv in Hx as [?|[-> Hf]]; [by left|right].
      split; [|done]. cbn. apply elem_of_cons. by left.
    + right. rewrite setitem_fallback in Hf. split; [|done].
      cbn. apply elem_of_cons. by right.
Qed.

(** X22: what the records of a ConfigScope evaluation can hold:
    [modified] only keys of [fixed]; [added_values] no key of [fixed];
    [ignored_fallback_writes] only declared parameters that the body
    assigns and that [preset] lacks and [fallback] has. *)
Theorem ConfigScope_records_bounds
    (self : ConfigScope) (fixed preset fallback : option (gmap string value))
    (s : ConfigSummary) :
  ConfigScope_call self fixed preset fallback = Ok s →
  modified s ⊆ dom (default ∅ fixed) ∧
  added_values s ## dom (default ∅ fixed) ∧
  ∀ x, x ∈ ignored_fallback_writes s →
       x ∈ arg_spec_args self ∧ assigns (_body_code self) x ∧
       default ∅ preset !! x = None ∧ is_Some (default ∅ fallback !! x).
Proof.
  intros (d & d' & m & Hrun & Hfill & Hh & ->)%ConfigScope_call_inv. cbn.
  destruct (ConfigScope_fill_in _ _ _ _ _ _ Hrun Hfill) as [Hd' _].
  destruct (ConfigScope_run_seeded _ _ _ _ _ Hrun) as [[Hauth _] _].
  apply ConfigScope_run_inv in Hrun as (d0 & view & Hb & Hex).
  pose proof (bind_args_inv _ _ _ _ _ _ _ _ Hb) as (HP & _).
  assert (DogmaticDict.modified d0 ⊆ DogmaticDict.authoritative d0 ∧
          DogmaticDict.fallback d0 = ∅ ∧
          DogmaticDict.ignored_fallback_writes d0 = []) as (Hm0 & _ & Hi0).
  { apply HP; [|done]. intros key v x (Hm & Hfb & Hiw). split_and!.
    - by apply setitem_modified_bound.
    - by rewrite setitem_fallback.
    - unfold DogmaticDict.setitem. case_decide; cbn; [done|].
      unfold DogmaticDict.fallback_only. rewrite Hfb, lookup_empty.
      rewrite (bool_decide_eq_false_2 (is_Some None)) by (by intros [? ?]).
      by rewrite andb_false_r. }
  split_and!.
  - rewrite Hd'. cbn. rewrite <- Hauth.
    eapply (exec_body_ind _ (λ y, DogmaticDict.modified y
                                  ⊆ DogmaticDict.authoritative y));
      [|exact Hex|exact Hm0].
    intros key v y. apply setitem_modified_bound.
  - unfold DogmaticDict.revelation. rewrite Hauth.
    intros x [_ Hx]%elem_of_difference. done.
  - intros x. rewrite Hd'. cbn.
    intros [Hx|[Ha [w Hw]]]%(exec_body_ignored_inv _ _ _ _ _ Hex).
    + cbn in Hx. rewrite Hi0 in Hx. by apply elem_of_nil in Hx.
    + cbn in Hw. rewrite (bind_args_view _ _ _ _ _ _ _ _ x Hb) in Hw.
      destruct (decide (x ∈ arg_spec_args self ∧ default ∅ preset !! x = None))
        as [[Hin Hp]|Hn]; [|by rewrite lookup_empty in Hw].
      split_and!; [done|done|done|eauto].
Qed.

Lemma ConfigScope_records_bounds_witness :
  ∃ s, ConfigScope_call scope_run_id (Some {["x" := VInt 10]}) None
         (Some {["run_id" := VStr "abc"]}) = Ok s ∧
       modified s ⊆ dom (default ∅ (Some ({["x" := VInt 10]}
                                            : gmap string value))) ∧
       ignored_fallback_writes s = ["run_id"].
Proof.
  assert (∃ s, ConfigScope_call scope_run_id (Some {["x" := VInt 10]}) None
                 (Some {["run_id" := VStr "abc"]}) = Ok s) as [s H]
    by (eexists; vm_compute; reflexivity).
  exists s. split; [exact H|]. split.
  - exact (proj1 (ConfigScope_records_bounds _ _ _ _ _ H)).
  - vm_compute in H. injection H as <-. reflexivity.
Defined.

(** X23: a ConfigScope invents no key: every key of its result is a key
    of [fixed], a key of [preset], or a name the body assigns.  An entry
    of [fallback] the body does not assign is never returned. *)
Theorem ConfigScope_result_keys
    (self : ConfigScope) (fixed preset fallback : option (gmap string value))
    (s : ConfigSummary) (k : string) (v : value) :
  ConfigScope_call self fixed preset fallback = Ok s →
  entries s !! k = Some v →
  k ∈ dom (default ∅ fixed) ∨ k ∈ dom (default ∅ preset) ∨
  assigns (_body_code self) k.
Proof.
  intros (d & d' & m & Hrun & Hfill & Hh & ->)%ConfigScope_call_inv. cbn.
  rewrite (harvest_lookup _ _ _ Hh).
  destruct (DogmaticDict.store d' !! k) as [w|] eqn:Hw; [|done]. intros _.
  destruct (ConfigScope_fill_in _ _ _ _ _ _ Hrun Hfill) as [_ Hfilled].
  apply ConfigScope_run_inv in Hrun as (d0 & view & Hb & Hex).
  specialize (Hfilled k). unfold filled_in in Hfilled.
  destruct (decide (k ∈ map target_of (_body_code self))) as [Ha|Hna];
    [by right; right|].
  rewrite (exec_body_untouched _ _ _ _ _ Hex Hna) in Hfilled. cbn in Hfilled.
  rewrite (bind_args_store _ _ _ _ _ _ _ _ k Hb) in Hfilled. cbn in Hfilled.
  destruct (default ∅ preset !! k) as [pv|] eqn:Hp.
  { right. left. apply elem_of_dom. eauto. }
  destruct (default ∅ fixed !! k) as [fv|] eqn:Hf.
  { left. apply elem_of_dom. eauto. }
  congruence.
Qed.

Lemma ConfigScope_result_keys_witness :
  ∃ s, ConfigScope_call scope_x None None (Some {["run_id" := VStr "abc"]})
       = Ok s ∧
       entries s !! "x" = Some (VInt 5) ∧
       ("x" ∈ dom (default ∅ (None : option (gmap string value))) ∨
        "x" ∈ dom (default ∅ (None : option (gmap string value))) ∨
        assigns (_body_code scope_x) "x").
Proof.
  assert (∃ s, ConfigScope_call scope_x None None
                 (Some {["run_id" := VStr "abc"]}) = Ok s) as [s H]
    by (eexists; vm_compute; reflexivity).
  assert (entries s !! "x" = Some (VInt 5)) as Hx.
  { vm_compute in H. injection H as <-. reflexivity. }
  exists s. split; [exact H|]. split; [exact Hx|].
  exact (ConfigScope_result_keys _ _ _ _ _ _ _ H Hx).
Defined.

(** X24: a ConfigScope evaluation raises TypeError when the body leaves a
    key bound to a dict that the preset value for that key cannot
    complete, as when the body assigns a dict to a name whose preset is
    a number. *)
Theorem ConfigScope_call_type_mismatch
    (self : ConfigScope) (fixed preset fallback : option (gmap string value))
    (d : DogmaticDict.t) (k : string) (pv : value) (tr : bool)
    (sub : list (string * value)) :
  ConfigScope_run self fixed preset fallback = Ok d →
  DogmaticDict.store d !! k = Some (VDict tr sub) →
  default ∅ preset !! k = Some pv →
  is_ok (fill_in_items pv sub) = false →
  ConfigScope_call self fixed preset fallback = Err TypeError.
Proof.
  intros Hrun Hs Hp Hbad. unfold ConfigScope_call. rewrite Hrun. cbn.
  by rewrite (fill_in_mismatch d _ k pv tr sub Hp Hs Hbad).
Qed.

Lemma ConfigScope_call_type_mismatch_witness :
  let self :=
    {| arg_spec_args := [];
       _body_code := [Assign "y" (EConst (VDict false [("p", VInt 1)]))];
       func_globals := ∅ |} in
  ∃ d, ConfigScope_run self None (Some {["y" := VInt 3]}) None = Ok d ∧
       ConfigScope_call self None (Some {["y" := VInt 3]}) None
       = Err TypeError.
Proof.
  cbv zeta.
  assert (∃ d, ConfigScope_run
                 {| arg_spec_args := [];
                    _body_code :=
                      [Assign "y" (EConst (VDict false [("p", VInt 1)]))];
                    func_globals := ∅ |}
                 None (Some {["y" := VInt 3]}) None = Ok d) as [d H]
    by (eexists; vm_compute; reflexivity).
  exists d. split; [exact H|].
  apply (ConfigScope_call_type_mismatch _ _ _ _ d "y" (VInt 3) false
           [("p", VInt 1)] H).
  - vm_compute in H. injection H as <-. reflexivity.
  - reflexivity.
  - reflexivity.
Defined.

(** X25: the result of a ConfigScope is stable under the harvest: every
    value of it is harvested to itself, so a result used as the
    namespace of a later harvest comes out unchanged. *)
Theorem ConfigScope_result_harvest_stable
    (self : ConfigScope) (fixed preset fallback : option (gmap string value))
    (s : ConfigSummary) (k : string) (v : value) :
  ConfigScope_call self fixed preset fallback = Ok s →
  entries s !! k = Some v →
  harvest_value k v = Some v.
Proof.
  intros (d & d' & m & Hrun & Hfill & Hh & ->)%ConfigScope_call_inv. cbn.
  rewrite (harvest_lookup _ _ _ Hh).
  destruct (DogmaticDict.store d' !! k) as [w|]; [cbn|done].
  intros (Hk & Hj & Hpl)%harvest_value_sound.
  unfold harvest_value. rewrite Hk, Hj, (undogmatize_of_plain v Hpl).
  by destruct v.
Qed.

Lemma ConfigScope_result_harvest_stable_witness :
  ∃ s, ConfigScope_call scope_odd_values None None None = Ok s ∧
       entries s !! "flag" = Some (VBool true) ∧
       harvest_value "flag" (VBool true) = Some (VBool true).
Proof.
  assert (∃ s, ConfigScope_call scope_odd_values None None None = Ok s)
    as [s H] by (eexists; vm_compute; reflexivity).
  assert (entries s !! "flag" = Some (VBool true)) as Hx.
  { vm_compute in H. injection H as <-. reflexivity. }
  exists s. split; [exact H|]. split; [exact Hx|].
  exact (ConfigScope_result_harvest_stable _ _ _ _ _ _ _ H Hx).
Defined.
